(** * redis-cpp: the RESP server of [src/Server.cpp]

    A shallow embedding of the request path of the server:
    [parse_resp], [to_upper], [handle_command], [ValueWithExpiry] and the
    receive loop of [handle_client], followed by the properties of the
    specification that concern them.

    Conventions.
    - A [std::string] is a [string]; a byte is an [ascii].
    - [kv_store] ([std::unordered_map<std::string, ValueWithExpiry>]) is a
      [gmap string ValueWithExpiry].
    - [std::chrono::steady_clock::now()] is an input of the function that
      reads it: a tick count [now : Z], in nanoseconds, the period of
      [steady_clock] in libstdc++ and libc++, held in a signed 64-bit
      representation.
    - A C++ evaluation ends in one of three ways, see [result]: it returns,
      it throws, or it has undefined behaviour ([operator[]] past the end
      of a vector, signed overflow). *)

From Stdlib Require Import ZArith Ascii String List Lia Bool.
From Stdlib Require Import DecimalString DecimalFacts DecimalNat.
From stdpp Require Import base option gmap strings list fin_maps.

Local Open Scope Z_scope.

(** ** Bytes and the C library *)

Module Libc.

Definition LF : ascii := "010"%char.
Definition CR : ascii := "013"%char.
Definition NUL : ascii := "000"%char.

(** The two-byte terminator written [\r\n] in the source. *)
Definition CRLF : string := String CR (String LF EmptyString).

Definition code (c : ascii) : Z := Z.of_N (N_of_ascii c).

(** [toupper] in the "C" locale: the lower-case ASCII letters move to
    upper case, every other byte stays. *)
Definition toupper (c : ascii) : ascii :=
  if (97 <=? code c) && (code c <=? 122)
  then ascii_of_N (Z.to_N (code c - 32))
  else c.

(** [isspace] in the "C" locale: space, and [\t \n \v \f \r]. *)
Definition isspace (c : ascii) : bool :=
  (code c =? 32) || ((9 <=? code c) && (code c <=? 13)).

Definition isdigit (c : ascii) : bool :=
  (48 <=? code c) && (code c <=? 57).

Fixpoint skip_space (s : string) : string :=
  match s with
  | String c s' => if isspace c then skip_space s' else s
  | EmptyString => EmptyString
  end.

(** The value of the longest prefix of decimal digits, most significant
    first, on top of the accumulator. *)
Fixpoint read_digits (acc : Z) (s : string) : Z :=
  match s with
  | String c s' =>
      if isdigit c then read_digits (acc * 10 + (code c - 48)) s' else acc
  | EmptyString => acc
  end.

(** [strtol(s, &end, 10)] before its range check: leading white space is
    skipped, one sign is optional, at least one digit is required, what
    follows the digits is ignored.  [None] is "no conversion". *)
Definition strtol10 (s : string) : option Z :=
  let s1 := skip_space s in
  let '(neg, s2) :=
    match s1 with
    | String "-"%char r => (true, r)
    | String "+"%char r => (false, r)
    | _ => (false, s1)
    end in
  match s2 with
  | String c _ =>
      if isdigit c
      then Some (if neg then - read_digits 0 s2 else read_digits 0 s2)
      else None
  | EmptyString => None
  end.

Definition INT_MIN : Z := - 2 ^ 31.
Definition INT_MAX : Z := 2 ^ 31 - 1.
Definition LONG_MIN : Z := - 2 ^ 63.
Definition LONG_MAX : Z := 2 ^ 63 - 1.

End Libc.

Import Libc.

(** ** Outcomes of a C++ evaluation *)

Inductive exception : Type :=
| invalid_argument
| out_of_range.

Inductive undefined : Type :=
| index_past_end      (* vector operator[] with an index >= size() *)
| signed_overflow.    (* overflow of a signed 64-bit duration count *)

Inductive result (A : Type) : Type :=
| Ret (a : A)
| Throw (e : exception)
| Undefined (u : undefined).

Arguments Ret {A} a.
Arguments Throw {A} e.
Arguments Undefined {A} u.

Definition bind {A B : Type} (m : result A) (k : A -> result B) : result B :=
  match m with
  | Ret a => k a
  | Throw e => Throw e
  | Undefined u => Undefined u
  end.

Notation "'do' x <- m ; k" := (bind m (fun x => k))
  (at level 10, x name, m at level 100, k at level 200).

(** [std::stoi] and [std::stol]: [std::invalid_argument] when nothing
    converts, [std::out_of_range] when the value does not fit. *)
Definition stoi (s : string) : result Z :=
  match strtol10 s with
  | None => Throw invalid_argument
  | Some z => if (INT_MIN <=? z) && (z <=? INT_MAX) then Ret z else Throw out_of_range
  end.

Definition stol (s : string) : result Z :=
  match strtol10 s with
  | None => Throw invalid_argument
  | Some z => if (LONG_MIN <=? z) && (z <=? LONG_MAX) then Ret z else Throw out_of_range
  end.

(** ** Strings *)

(** [s[0]]: for an empty [std::string] it is the terminating NUL. *)
Definition front (s : string) : ascii :=
  match s with
  | String c _ => c
  | EmptyString => NUL
  end.

(** [s.substr(1)] of a string whose [s[0]] was just compared with a
    non-NUL byte, so [s] is not empty. *)
Definition substr_from1 (s : string) : string :=
  match s with
  | String _ s' => s'
  | EmptyString => EmptyString
  end.

Fixpoint take_str (n : nat) (s : string) : string :=
  match n, s with
  | S n', String c s' => String c (take_str n' s')
  | _, _ => EmptyString
  end.

Fixpoint drop_str (n : nat) (s : string) : string :=
  match n, s with
  | S n', String _ s' => drop_str n' s'
  | _, _ => s
  end.

Definition starts_with_crlf (s : string) : bool :=
  match s with
  | String c (String d _) => Ascii.eqb c CR && Ascii.eqb d LF
  | _ => false
  end.

(** [s.find("\r\n")]: the position of the first occurrence, [None] for
    [npos]. *)
Fixpoint find_crlf (s : string) : option nat :=
  match s with
  | EmptyString => None
  | String _ s' =>
      if starts_with_crlf s then Some 0%nat
      else option_map S (find_crlf s')
  end.

(** ** parse_resp *)

(** What [parse_resp] uses of a [std::istringstream]: the bytes not yet
    read, and whether the stream is still [good()] (neither [eofbit] nor
    [failbit]). *)
Record istringstream : Type := mk_iss { unread : string; good : bool }.

(** The bytes before the first LF and the bytes after it; [None] when
    there is no LF. *)
Fixpoint split_line (s : string) : option (string * string) :=
  match s with
  | EmptyString => None
  | String c s' =>
      if Ascii.eqb c LF then Some (EmptyString, s')
      else match split_line s' with
           | Some (l, r) => Some (String c l, r)
           | None => None
           end
  end.

(** [std::getline(iss, line)].  On a stream that is not good the sentry
    fails and [line] keeps its value.  Otherwise [line] is erased and
    filled up to the next LF, which is consumed; when the end of the
    input comes first the stream stops being good ([eofbit], and
    [failbit] too if nothing was read). *)
Definition getline (iss : istringstream) (line : string) : istringstream * string :=
  if good iss then
    match split_line (unread iss) with
    | Some (l, r) => (mk_iss r true, l)
    | None => (mk_iss EmptyString false, unread iss)
    end
  else (iss, line).

(** The [for] loop of [parse_resp], [n] iterations to go. *)
Fixpoint parse_resp_loop (n : nat) (iss : istringstream) (line : string)
    (parts : list string) : list string :=
  match n with
  | O => parts
  | S n' =>
      let '(iss1, line1) := getline iss line in
      if negb (Ascii.eqb (front line1) "$") then parse_resp_loop n' iss1 line1 parts
      else
        let '(iss2, line2) := getline iss1 line1 in
        parse_resp_loop n' iss2 line2 (parts ++ [line2])
  end.

Definition parse_resp (input : string) : result (list string) :=
  let '(iss, line) := getline (mk_iss input true) EmptyString in
  if negb (Ascii.eqb (front line) "*") then Ret []
  else
    do array_len <- stoi (substr_from1 line);
    Ret (parse_resp_loop (Z.to_nat array_len) iss line []).

(** ** to_upper *)

Fixpoint to_upper (str : string) : string :=
  match str with
  | EmptyString => EmptyString
  | String c s => String (toupper c) (to_upper s)
  end.

(** ** ValueWithExpiry and the store *)

Record ValueWithExpiry : Type := mk_value {
  value : string;
  expiry : Z;          (* time_point<steady_clock>, in ticks since its epoch *)
  has_expiry : bool
}.

Definition fits_int64 (z : Z) : bool := (LONG_MIN <=? z) && (z <=? LONG_MAX).

(** Ticks of [steady_clock] in a millisecond. *)
Definition ticks_per_milli : Z := 1000000.

(** [ValueWithExpiry(val)]: [expiry] is default-constructed, the epoch. *)
Definition ValueWithExpiry_plain (val : string) : ValueWithExpiry :=
  {| value := val; expiry := 0; has_expiry := false |}.

(** [ValueWithExpiry(val, px_millis)]:
    [expiry = steady_clock::now() + milliseconds(px_millis)].  The
    milliseconds are converted to ticks and added in signed 64-bit
    arithmetic. *)
Definition ValueWithExpiry_px (now : Z) (val : string) (px_millis : Z)
    : result ValueWithExpiry :=
  let d := px_millis * ticks_per_milli in
  if fits_int64 d && fits_int64 (now + d)
  then Ret {| value := val; expiry := now + d; has_expiry := true |}
  else Undefined signed_overflow.

Definition is_expired (now : Z) (v : ValueWithExpiry) : bool :=
  if negb (has_expiry v) then false
  else now >? expiry v.

(** [kv_store]. *)
Abbreviation kv_store := (gmap string ValueWithExpiry).

(** [parts[i]] on a [std::vector<std::string>]. *)
Definition vec_at (parts : list string) (i : nat) : result string :=
  match parts !! i with
  | Some s => Ret s
  | None => Undefined index_past_end
  end.

(** ** handle_command *)

(** The replies, as the bytes written to the socket. *)
Definition ERR_EMPTY : string := "-ERR empty command" +:+ CRLF.
Definition PONG : string := "+PONG" +:+ CRLF.
Definition OK : string := "+OK" +:+ CRLF.
Definition ERR_EXPIRE : string := "-ERR invalid expire time in 'set' command" +:+ CRLF.
Definition NULL_BULK : string := "$-1" +:+ CRLF.
Definition ERR_UNKNOWN : string := "-ERR unknown command" +:+ CRLF.
Definition plus_reply (s : string) : string := "+" +:+ s +:+ CRLF.

(** [handle_command(parts)], with the store it runs on and the reading
    [now] that [steady_clock] gives during the call.  The result is the
    response and the store after the call.  An assignment
    [kv_store[k] = v] is the insertion of [v] at [k]; in it [v], the right
    operand, is evaluated first. *)
Definition handle_command (now : Z) (kv : kv_store) (parts : list string)
    : result (string * kv_store) :=
  let size := length parts in
  if (size =? 0)%nat then Ret (ERR_EMPTY, kv)
  else
    do p0 <- vec_at parts 0;
    let command := to_upper p0 in
    if String.eqb command "PING" then Ret (PONG, kv)
    else if String.eqb command "ECHO" && (1 <? size)%nat then
      do p1 <- vec_at parts 1;
      Ret (plus_reply p1, kv)
    else if String.eqb command "SET" && (2 <=? size)%nat then
      do px <- (if (4 <=? size)%nat
                then do p3 <- vec_at parts 3;
                     Ret (String.eqb (to_upper p3) "PX" && (5 <=? size)%nat)
                else Ret false);
      if px then
        do p4 <- vec_at parts 4;
        match stol p4 with
        | Ret px_millis =>
            do p2 <- vec_at parts 2;
            do v <- ValueWithExpiry_px now p2 px_millis;
            do p1 <- vec_at parts 1;
            Ret (OK, <[p1 := v]> kv)
        | Throw _ => Ret (ERR_EXPIRE, kv)
        | Undefined u => Undefined u
        end
      else
        do p2 <- vec_at parts 2;
        do p1 <- vec_at parts 1;
        Ret (OK, <[p1 := ValueWithExpiry_plain p2]> kv)
    else if String.eqb command "GET" && (1 <? size)%nat then
      do p1 <- vec_at parts 1;
      match kv !! p1 with
      | Some v =>
          if negb (is_expired now v) then Ret (plus_reply (value v), kv)
          else Ret (NULL_BULK, delete p1 kv)
      | None => Ret (NULL_BULK, kv)
      end
    else Ret (ERR_UNKNOWN, kv).

(** ** handle_client *)

(** Where a connection thread stands. *)
Inductive progress : Type :=
| Receiving                      (* back at [recv], waiting for bytes *)
| Closed                         (* [recv] gave <= 0: [close(client_fd)] *)
| Terminated (e : exception)     (* an exception left the thread: [std::terminate] *)
| Erratic (u : undefined).       (* undefined behaviour was reached *)

Record session : Type := mk_session {
  requests : list (list string);  (* the vectors passed to [handle_command], in order *)
  sent : list string;             (* the responses passed to [send], in order *)
  store : kv_store;               (* [kv_store] as the thread leaves it *)
  incomplete_data : string;       (* the bytes still buffered *)
  served : nat;                   (* how many commands were answered *)
  status : progress
}.

(** [s], after [reqs] were handled and [responses] sent before it. *)
Definition preceded_by (reqs : list (list string)) (responses : list string)
    (s : session) : session :=
  {| requests := reqs ++ requests s; sent := responses ++ sent s;
     store := store s; incomplete_data := incomplete_data s;
     served := served s; status := status s |}.

(** The inner [while] of [handle_client]: as long as the buffer holds a
    CR LF, cut the bytes up to and including the first one, parse them,
    handle the request and send the response.  [clock k] is the reading
    of [steady_clock] while the [k]-th command of the thread is handled.
    Every iteration removes at least two bytes, so [fuel] at least the
    length of the buffer is never used up, see [process_buffer_eq]. *)
Fixpoint process_loop (fuel : nat) (clock : nat -> Z) (k : nat) (kv : kv_store)
    (buf : string) : session :=
  match find_crlf buf, fuel with
  | Some pos, S fuel' =>
      let command := take_str (pos + 2) buf in
      let rest := drop_str (pos + 2) buf in
      match parse_resp command with
      | Ret parts =>
          match handle_command (clock k) kv parts with
          | Ret (response, kv') =>
              preceded_by [parts] [response]
                (process_loop fuel' clock (S k) kv' rest)
          | Throw e => mk_session [parts] [] kv rest k (Terminated e)
          | Undefined u => mk_session [parts] [] kv rest k (Erratic u)
          end
      | Throw e => mk_session [] [] kv rest k (Terminated e)
      | Undefined u => mk_session [] [] kv rest k (Erratic u)
      end
  | _, _ => mk_session [] [] kv buf k Receiving
  end.

Definition process_buffer (clock : nat -> Z) (k : nat) (kv : kv_store)
    (buf : string) : session :=
  process_loop (String.length buf) clock k kv buf.

(** The outer loop of [handle_client].  [recvs] are the byte strings that
    the successive calls of [recv] deliver; an empty one, or the end of
    the list, is a [recv] that returns [<= 0]. *)
Fixpoint handle_client_from (clock : nat -> Z) (recvs : list string) (k : nat)
    (kv : kv_store) (buf : string) : session :=
  match recvs with
  | [] => mk_session [] [] kv buf k Closed
  | bytes :: recvs' =>
      if (String.length bytes =? 0)%nat
      then mk_session [] [] kv buf k Closed
      else
        let s := process_buffer clock k kv (buf +:+ bytes) in
        match status s with
        | Receiving =>
            preceded_by (requests s) (sent s)
              (handle_client_from clock recvs' (served s) (store s) (incomplete_data s))
        | _ => s
        end
  end.

Definition handle_client (clock : nat -> Z) (kv : kv_store) (recvs : list string)
    : session :=
  handle_client_from clock recvs 0 kv EmptyString.

(** ** Vocabulary of the specification *)

(** The replies of the specification and their encoding (section 4.4):
    [Simple] and [Bulk] are both framed with a leading [+], [Nil] is the
    null bulk marker, [Error] carries [-ERR]. *)
Inductive Reply : Type :=
| Simple (s : string)
| Bulk (b : string)
| Nil
| Error (m : string).

Definition encode (r : Reply) : string :=
  match r with
  | Simple s => "+" +:+ s +:+ CRLF
  | Bulk b => "+" +:+ b +:+ CRLF
  | Nil => "$-1" +:+ CRLF
  | Error m => "-ERR " +:+ m +:+ CRLF
  end.

(** Two bytes that are equal, or the two cases of one ASCII letter. *)
Definition is_letter (c : ascii) : bool :=
  ((65 <=? code c) && (code c <=? 90)) || ((97 <=? code c) && (code c <=? 122)).

Definition same_letter (c d : ascii) : bool :=
  Ascii.eqb c d
  || (is_letter c && is_letter d
      && ((code c =? code d + 32) || (code d =? code c + 32))).

(** Two command names that differ only in letter case. *)
Fixpoint differ_only_in_case (a b : string) : bool :=
  match a, b with
  | EmptyString, EmptyString => true
  | String c a', String d b' => same_letter c d && differ_only_in_case a' b'
  | _, _ => false
  end.

(** The command names the dispatcher knows, in upper case. *)
Definition recognized (command : string) : bool :=
  String.eqb command "PING" || String.eqb command "ECHO"
  || String.eqb command "SET" || String.eqb command "GET".

(** The arguments after [SET key value] carry a PX option: the keyword,
    in any case, followed by a millis argument. *)
Definition px_option (opts : list string) : bool :=
  match opts with
  | px :: _ :: _ => String.eqb (to_upper px) "PX"
  | _ => false
  end.

(** A string that reads as a non-negative integer: decimal digits, at
    least one. *)
Fixpoint all_digits (s : string) : bool :=
  match s with
  | EmptyString => true
  | String c s' => isdigit c && all_digits s'
  end.

Definition nonneg_integer (s : string) : bool :=
  negb (String.eqb s EmptyString) && all_digits s.

(** The request names [key] in a SET: it may overwrite the entry. *)
Definition sets_key (key : string) (parts : list string) : bool :=
  match parts with
  | cmd :: k :: _ => String.eqb (to_upper cmd) "SET" && String.eqb k key
  | _ => false
  end.

(** A sequence of requests handled one after the other, each with the
    clock reading during its call; the responses are dropped. *)
Fixpoint run (kv : kv_store) (reqs : list (Z * list string)) : result kv_store :=
  match reqs with
  | [] => Ret kv
  | (now, parts) :: reqs' =>
      do r <- handle_command now kv parts;
      run (snd r) reqs'
  end.

(** The entry of [key], if any, has not expired at [now]. *)
Definition unexpired (kv : kv_store) (key : string) (now : Z) : Prop :=
  forall v, kv !! key = Some v -> is_expired now v = false.

(** The first line that [parse_resp] reads from a command. *)
Definition first_line (command : string) : string :=
  snd (getline (mk_iss command true) EmptyString).

(** Malformed array headers of the specification (section 4.1). *)
Definition wrong_sigil (line : string) : bool :=
  negb (Ascii.eqb (front line) "*").

Definition negative_length (line : string) : bool :=
  match stoi (substr_from1 line) with
  | Ret n => n <? 0
  | _ => false
  end.

Definition non_numeric_length (line : string) : bool :=
  match stoi (substr_from1 line) with
  | Throw invalid_argument => true
  | _ => false
  end.

(** The frames of the specification (section 4.1): a line [*<N>] and [N]
    elements [$<len>], each line ended by CR LF, the numbers in decimal. *)
Definition decimal (n : nat) : string := NilEmpty.string_of_uint (Nat.to_uint n).

Definition frame_element (arg : string) : string :=
  "$" +:+ decimal (String.length arg) +:+ CRLF +:+ arg +:+ CRLF.

Fixpoint frame_elements (args : list string) : string :=
  match args with
  | [] => EmptyString
  | arg :: args' => frame_element arg +:+ frame_elements args'
  end.

Definition frame (args : list string) : string :=
  "*" +:+ decimal (length args) +:+ CRLF +:+ frame_elements args.

(** No LF among the bytes of [s]. *)
Fixpoint lf_free (s : string) : bool :=
  match s with
  | EmptyString => true
  | String c s' => negb (Ascii.eqb c LF) && lf_free s'
  end.

(** Every LF of [s] comes right after a CR; [after_cr] tells whether the
    byte before [s] is a CR. *)
Fixpoint lf_only_after_cr (after_cr : bool) (s : string) : bool :=
  match s with
  | EmptyString => true
  | String c s' =>
      (negb (Ascii.eqb c LF) || after_cr) && lf_only_after_cr (Ascii.eqb c CR) s'
  end.

(** ** Sample data *)

(** A store in which ["k"] holds ["old"] without expiry. *)
Definition store_with_old : kv_store :=
  <["k" := ValueWithExpiry_plain "old"]> ∅.

(** A store in which ["k"] holds ["v"] until tick 100. *)
Definition store_until_100 : kv_store :=
  <["k" := mk_value "v" 100 true]> ∅.

(** [store_until_100] after ["k"] was set to ["bar"] without expiry. *)
Definition store_with_bar : kv_store :=
  <["k" := ValueWithExpiry_plain "bar"]> store_until_100.

(** The frame of the request [PING], as the specification frames it. *)
Definition ping_frame : string :=
  "*1" +:+ CRLF +:+ "$4" +:+ CRLF +:+ "PING" +:+ CRLF.

(** The same three lines ended by a bare LF, and one CR LF at the end. *)
Definition ping_lines : string :=
  "*1" +:+ String LF ("$4" +:+ String LF ("PING" +:+ String LF CRLF)).

(** A frame of which the last four bytes have not arrived. *)
Definition ping_frame_cut : string :=
  "*1" +:+ CRLF +:+ "$4" +:+ CRLF +:+ "PI".

(** A line with a wrong leading sigil. *)
Definition question_line : string := "?" +:+ CRLF.

(** A clock that stands still. *)
Definition still_clock (k : nat) : Z := 0.

(** A SET of two elements, in lines that [parse_resp] reads as such. *)
Definition set_key_lines : string :=
  "*2" +:+ String LF ("$3" +:+ String LF ("SET" +:+ String LF
    ("$1" +:+ String LF ("k" +:+ String LF CRLF)))).

(** ** Requests in lines *)

(** A line as [std::getline] reads it: the bytes and the LF that ends
    them. *)
Definition line (s : string) : string := s +:+ String LF EmptyString.

(** The lines of the elements of a request: for each element a line of
    [$] and a length field, and a line of payload. *)
Fixpoint element_lines (elems : list (string * string)) : string :=
  match elems with
  | [] => EmptyString
  | (len, payload) :: elems' =>
      line ("$" +:+ len) +:+ line payload +:+ element_lines elems'
  end.

(** A request in lines: a line of [*] and a count field, then the lines
    of the elements. *)
Definition request_lines (count : string) (elems : list (string * string)) : string :=
  line ("*" +:+ count) +:+ element_lines elems.

(** [s] with a CR after it. *)
Definition with_cr (s : string) : string := s +:+ String CR EmptyString.

(** White space only, as [isspace] sees it. *)
Fixpoint all_space (s : string) : bool :=
  match s with
  | EmptyString => true
  | String c s' => isspace c && all_space s'
  end.

(** No CR and no LF among the bytes of [s]. *)
Fixpoint plain_bytes (s : string) : bool :=
  match s with
  | EmptyString => true
  | String c s' => negb (Ascii.eqb c CR) && negb (Ascii.eqb c LF) && plain_bytes s'
  end.

(** No CR among the bytes of [s]. *)
Fixpoint cr_free (s : string) : bool :=
  match s with
  | EmptyString => true
  | String c s' => negb (Ascii.eqb c CR) && cr_free s'
  end.

(** ** Bytes that arrive later *)

(** The session [s] of a buffer, once the bytes [more] have arrived after
    it: a thread back at [recv] goes on with the bytes it had left and
    the new ones; a thread that stopped leaves them unread. *)
Definition fed (clock : nat -> Z) (more : string) (s : session) : session :=
  match status s with
  | Receiving =>
      preceded_by (requests s) (sent s)
        (process_buffer clock (served s) (store s) (incomplete_data s +:+ more))
  | _ =>
      mk_session (requests s) (sent s) (store s) (incomplete_data s +:+ more)
        (served s) (status s)
  end.

(** What a session shows to the peer and to the other threads: all but
    the bytes left in its buffer. *)
Definition observable (s : session)
    : list (list string) * list string * kv_store * nat * progress :=
  (requests s, sent s, store s, served s, status s).

(** The bytes of all the [recv]s, one after the other. *)
Fixpoint concat_recvs (recvs : list string) : string :=
  match recvs with
  | [] => EmptyString
  | bytes :: recvs' => bytes +:+ concat_recvs recvs'
  end.

(** ** The dispatcher before expiry *)

Module Previous.

(** [handle_command] as it was before entries could expire: [kv_store]
    maps a key to its value, SET takes no option and asks for more than
    two elements. *)
Definition handle_command (kv : gmap string string) (parts : list string)
    : result (string * gmap string string) :=
  let size := length parts in
  if (size =? 0)%nat then Ret (ERR_EMPTY, kv)
  else
    do p0 <- vec_at parts 0;
    let command := to_upper p0 in
    if String.eqb command "PING" then Ret (PONG, kv)
    else if String.eqb command "ECHO" && (1 <? size)%nat then
      do p1 <- vec_at parts 1;
      Ret (plus_reply p1, kv)
    else if String.eqb command "SET" && (2 <? size)%nat then
      do p2 <- vec_at parts 2;
      do p1 <- vec_at parts 1;
      Ret (OK, <[p1 := p2]> kv)
    else if String.eqb command "GET" && (1 <? size)%nat then
      do p1 <- vec_at parts 1;
      match kv !! p1 with
      | Some v => Ret (plus_reply v, kv)
      | None => Ret (NULL_BULK, kv)
      end
    else Ret (ERR_UNKNOWN, kv).

End Previous.

(** * Properties *)

(** ** Bytes *)

Lemma code_range (c : ascii) : 0 <= code c < 256.
Proof.
  unfold code. pose proof (N_ascii_bounded c). lia.
Qed.

Lemma code_inj (c d : ascii) : code c = code d -> c = d.
Proof.
  unfold code. intros H.
  rewrite <- (ascii_N_embedding c), <- (ascii_N_embedding d).
  f_equal. lia.
Qed.

Lemma code_toupper (c : ascii) :
  code (toupper c) =
  if (97 <=? code c) && (code c <=? 122) then code c - 32 else code c.
Proof.
  unfold toupper.
  destruct ((97 <=? code c) && (code c <=? 122)) eqn:E; [|reflexivity].
  unfold code at 1. rewrite N_ascii_embedding; lia.
Qed.

Lemma same_letter_toupper (c d : ascii) :
  same_letter c d = true -> toupper c = toupper d.
Proof.
  unfold same_letter, is_letter. intros H.
  destruct (Ascii.eqb_spec c d) as [->|_]; [reflexivity|].
  apply code_inj. rewrite !code_toupper.
  pose proof (code_range c). pose proof (code_range d).
  repeat case_match; lia.
Qed.

Lemma differ_only_in_case_to_upper (a b : string) :
  differ_only_in_case a b = true -> to_upper a = to_upper b.
Proof.
  revert b. induction a as [|c a IH]; intros [|d b] H; simpl in *;
    try discriminate; [reflexivity|].
  apply andb_prop in H as [Hc Hs].
  f_equal; [by apply same_letter_toupper | by apply IH].
Qed.

(** ** std::stol *)

(** [std::stol] fails in two ways only. *)
Lemma stol_throws (s : string) (e : exception) :
  stol s = Throw e <->
  (strtol10 s = None /\ e = invalid_argument)
  \/ (exists z, strtol10 s = Some z /\ fits_int64 z = false /\ e = out_of_range).
Proof.
  unfold stol, fits_int64. destruct (strtol10 s) as [z|].
  - destruct ((LONG_MIN <=? z) && (z <=? LONG_MAX)) eqn:E; split.
    + discriminate.
    + intros [[? _]|(z' & [= <-] & Hz & _)]; congruence.
    + intros [= <-]. right. by exists z.
    + intros [[? _]|(z' & _ & _ & ->)]; [discriminate|reflexivity].
  - split.
    + intros [= <-]. by left.
    + intros [[_ ->]|(z & ? & _)]; [reflexivity|discriminate].
Qed.

Lemma read_digits_nonneg (s : string) (acc : Z) : 0 <= acc -> 0 <= read_digits acc s.
Proof.
  revert acc. induction s as [|c s IH]; intros acc Hacc; simpl; [assumption|].
  destruct (isdigit c) eqn:Hc; [|assumption].
  apply IH. unfold isdigit in Hc. lia.
Qed.

(** Every string of decimal digits converts, to a non-negative value:
    [std::stol] fails on fewer strings than those that are no
    non-negative integer. *)
Lemma strtol10_nonneg_integer (s : string) :
  nonneg_integer s = true -> exists z, strtol10 s = Some z /\ 0 <= z.
Proof.
  unfold nonneg_integer. destruct s as [|c s]; [discriminate|].
  simpl. intros H. apply andb_prop in H as [Hc Hs].
  assert (Hsp : isspace c = false) by (unfold isdigit, isspace in *; lia).
  assert (Hminus : c <> "-"%char) by (intros ->; discriminate).
  assert (Hplus : c <> "+"%char) by (intros ->; discriminate).
  exists (read_digits 0 (String c s)). split.
  - unfold strtol10. cbn [skip_space]. rewrite Hsp.
    destruct (ascii_dec c "-") as [E|_]; [contradiction|].
    destruct (ascii_dec c "+") as [E|_]; [contradiction|].
    assert (Hsign : match String c s with
                    | String "-"%char r => (true, r)
                    | String "+"%char r => (false, r)
                    | _ => (false, String c s)
                    end = (false, String c s)).
    { destruct c as [[] [] [] [] [] [] [] []]; try reflexivity; contradiction. }
    rewrite Hsign. by rewrite Hc.
  - by apply read_digits_nonneg.
Qed.

(** ** handle_command, branch by branch *)

(** Run [handle_command] up to the comparisons of the command name,
    which [H] decides. *)
Ltac dispatch_with H :=
  unfold handle_command; simpl; rewrite H; simpl.

Section Dispatch.

Variables (now : Z) (kv : kv_store).

Lemma handle_command_empty : handle_command now kv [] = Ret (ERR_EMPTY, kv).
Proof. reflexivity. Qed.

(** The command name matters only through [to_upper]. *)
Lemma handle_command_name (a b : string) (args : list string) :
  to_upper a = to_upper b ->
  handle_command now kv (a :: args) = handle_command now kv (b :: args).
Proof.
  intros H. dispatch_with H. reflexivity.
Qed.

Lemma handle_command_ping (cmd : string) (args : list string) :
  to_upper cmd = "PING" -> handle_command now kv (cmd :: args) = Ret (PONG, kv).
Proof.
  intros H. dispatch_with H. reflexivity.
Qed.

Lemma handle_command_unknown (cmd : string) (args : list string) :
  recognized (to_upper cmd) = false ->
  handle_command now kv (cmd :: args) = Ret (ERR_UNKNOWN, kv).
Proof.
  unfold recognized. intros H.
  apply orb_false_elim in H as [H Hget].
  apply orb_false_elim in H as [H Hset].
  apply orb_false_elim in H as [Hping Hecho].
  unfold handle_command. simpl.
  rewrite Hping, Hecho, Hset, Hget. reflexivity.
Qed.

Lemma handle_command_set_plain (cmd key val : string) (opts : list string) :
  to_upper cmd = "SET" -> px_option opts = false ->
  handle_command now kv (cmd :: key :: val :: opts)
  = Ret (OK, <[key := ValueWithExpiry_plain val]> kv).
Proof.
  intros Hc Hpx. dispatch_with Hc.
  destruct opts as [|px [|millis rest]]; simpl in *; try reflexivity.
  - rewrite andb_false_r. reflexivity.
  - rewrite Hpx. reflexivity.
Qed.

Lemma handle_command_set_px (cmd key val px millis : string) (rest : list string) :
  to_upper cmd = "SET" -> to_upper px = "PX" ->
  handle_command now kv (cmd :: key :: val :: px :: millis :: rest)
  = match stol millis with
    | Ret px_millis =>
        do v <- ValueWithExpiry_px now val px_millis;
        Ret (OK, <[key := v]> kv)
    | Throw _ => Ret (ERR_EXPIRE, kv)
    | Undefined u => Undefined u
    end.
Proof.
  intros Hc Hpx. dispatch_with Hc.
  rewrite Hpx. simpl. destruct (stol millis) as [z| |]; reflexivity.
Qed.

Lemma handle_command_set_short (cmd key : string) :
  to_upper cmd = "SET" ->
  handle_command now kv [cmd; key] = Undefined index_past_end.
Proof.
  intros Hc. dispatch_with Hc. reflexivity.
Qed.

Lemma handle_command_get (cmd key : string) (extra : list string) :
  to_upper cmd = "GET" ->
  handle_command now kv (cmd :: key :: extra)
  = match kv !! key with
    | Some v =>
        if is_expired now v then Ret (NULL_BULK, delete key kv)
        else Ret (plus_reply (value v), kv)
    | None => Ret (NULL_BULK, kv)
    end.
Proof.
  intros Hc. dispatch_with Hc.
  destruct (kv !! key) as [v|]; [|reflexivity].
  destruct (is_expired now v); reflexivity.
Qed.

End Dispatch.


Lemma stol_defined (s : string) (u : undefined) : stol s <> Undefined u.
Proof. unfold stol. repeat case_match; discriminate. Qed.

Lemma stoi_defined (s : string) (u : undefined) : stoi s <> Undefined u.
Proof. unfold stoi. repeat case_match; discriminate. Qed.


(** ** The claims on the dispatcher *)

(** C2 (the code departs from the claim).  A SET request of exactly two
    elements, the command name and a key, passes the guard
    [parts.size() >= 2] and then evaluates [parts[2]], one past the end of
    the vector. *)
Theorem set_of_two_elements_reads_past_end (now : Z) (kv : kv_store) (key : string) :
  handle_command now kv ["SET"; key] = Undefined index_past_end
  /\ vec_at ["SET"; key] 2 = Undefined index_past_end
  /\ parse_resp set_key_lines = Ret ["SET"; "k"].
Proof.
  split; [by apply handle_command_set_short|]. split; reflexivity.
Qed.

(** C3, as stated, fails: a millis argument that is not a non-negative
    integer, [-5], is accepted.  The reply is [+OK] and the prior entry of
    the key is replaced by one whose expiry lies in the past. *)
Lemma negative_px_is_accepted :
  px_option ["PX"; "-5"] = true
  /\ nonneg_integer "-5" = false
  /\ handle_command 7 store_with_old ["SET"; "k"; "new"; "PX"; "-5"]
     <> Ret (encode (Error "invalid expire time in 'set' command"), store_with_old)
  /\ handle_command 7 store_with_old ["SET"; "k"; "new"; "PX"; "-5"]
     = Ret (encode (Simple "OK"),
            <["k" := mk_value "new" (7 - 5000000) true]> store_with_old).
Proof.
  split; [reflexivity|]. split; [reflexivity|].
  assert (E : handle_command 7 store_with_old ["SET"; "k"; "new"; "PX"; "-5"]
              = Ret (encode (Simple "OK"),
                     <["k" := mk_value "new" (7 - 5000000) true]> store_with_old)).
  { rewrite handle_command_set_px by reflexivity. reflexivity. }
  split; [|exact E].
  rewrite E. intros H. inversion H.
Qed.

(** C3, amended.  In a SET request with a PX option the millis argument
    is read by [std::stol]; whenever [std::stol] fails on it (nothing
    converts, or the value does not fit a [long]) the reply is the expire
    error and the store is left as it was. *)
Theorem set_px_parse_failure (now : Z) (kv : kv_store)
    (cmd key val px millis : string) (rest : list string) (e : exception) :
  to_upper cmd = "SET" ->
  to_upper px = "PX" ->
  stol millis = Throw e ->
  handle_command now kv (cmd :: key :: val :: px :: millis :: rest)
  = Ret (encode (Error "invalid expire time in 'set' command"), kv).
Proof.
  intros Hc Hpx Hms. rewrite handle_command_set_px by assumption.
  rewrite Hms. reflexivity.
Qed.

Lemma set_px_parse_failure_witness :
  handle_command 7 store_with_old ["set"; "k"; "new"; "px"; "abc"]
  = Ret (encode (Error "invalid expire time in 'set' command"), store_with_old).
Proof.
  apply (set_px_parse_failure 7 _ "set" "k" "new" "px" "abc" [] invalid_argument);
    reflexivity.
Defined.

(** C6, as stated, fails at its boundary: an entry whose expiry equals
    the clock reading is not expired.  GET returns its value and the entry
    stays in the store. *)
Lemma entry_expiring_now_is_served :
  store_until_100 !! "k" = Some (mk_value "v" 100 true)
  /\ (100 <=? 100) = true
  /\ handle_command 100 store_until_100 ["GET"; "k"]
     <> Ret (encode Nil, delete "k" store_until_100)
  /\ handle_command 100 store_until_100 ["GET"; "k"]
     = Ret (encode (Bulk "v"), store_until_100).
Proof.
  split; [reflexivity|]. split; [reflexivity|].
  assert (E : handle_command 100 store_until_100 ["GET"; "k"]
              = Ret (encode (Bulk "v"), store_until_100)).
  { rewrite handle_command_get by reflexivity. reflexivity. }
  split; [|exact E].
  rewrite E. intros H. inversion H.
Qed.

(** C6, amended.  A GET on a key whose entry has an expiry strictly
    before the clock reading deletes the entry and replies Nil, exactly as
    the same GET does on the store without the key; an entry whose expiry
    equals the clock reading is not expired, its value is returned and it
    is kept. *)
Theorem get_expired_entry (now : Z) (kv : kv_store) (cmd key : string)
    (v : ValueWithExpiry) :
  to_upper cmd = "GET" ->
  kv !! key = Some v ->
  has_expiry v = true ->
  (expiry v < now ->
     handle_command now kv [cmd; key] = Ret (encode Nil, delete key kv)
     /\ handle_command now kv [cmd; key]
        = handle_command now (delete key kv) [cmd; key])
  /\ (expiry v = now ->
        handle_command now kv [cmd; key] = Ret (encode (Bulk (value v)), kv)).
Proof.
  intros Hc Hv Hx. split; intros Hnow.
  - rewrite !handle_command_get by assumption.
    rewrite Hv, lookup_delete_eq. unfold is_expired. rewrite Hx. simpl.
    replace (now >? expiry v) with true by lia.
    split; reflexivity.
  - rewrite handle_command_get by assumption.
    rewrite Hv. unfold is_expired. rewrite Hx. simpl.
    replace (now >? expiry v) with false by lia.
    reflexivity.
Qed.

Lemma get_expired_entry_witness :
  (handle_command 101 store_until_100 ["get"; "k"]
   = Ret (encode Nil, delete "k" store_until_100)
   /\ handle_command 101 store_until_100 ["get"; "k"]
      = handle_command 101 (delete "k" store_until_100) ["get"; "k"])
  /\ handle_command 100 store_until_100 ["get"; "k"]
     = Ret (encode (Bulk "v"), store_until_100).
Proof.
  split.
  - apply (get_expired_entry 101 store_until_100 "get" "k" (mk_value "v" 100 true));
      [reflexivity | reflexivity | reflexivity | simpl; lia].
  - apply (get_expired_entry 100 store_until_100 "get" "k" (mk_value "v" 100 true));
      reflexivity.
Defined.

(** C8.  A SET without a PX option replaces the entry of the key
    wholesale: whatever the store held for the key, expiry included, the
    entry afterwards is the new value without expiry, and it never
    expires. *)
Theorem set_without_px_replaces_entry (now : Z) (kv : kv_store)
    (cmd key val : string) (opts : list string) :
  to_upper cmd = "SET" ->
  px_option opts = false ->
  exists kv',
    handle_command now kv (cmd :: key :: val :: opts) = Ret (encode (Simple "OK"), kv')
    /\ kv' = <[key := ValueWithExpiry_plain val]> kv
    /\ kv' !! key = Some {| value := val; expiry := 0; has_expiry := false |}
    /\ forall later, unexpired kv' key later.
Proof.
  intros Hc Hpx. eexists. split; [by apply handle_command_set_plain|].
  split; [reflexivity|]. split; [apply lookup_insert_eq|].
  intros later v. rewrite lookup_insert_eq. by intros [= <-].
Qed.

Lemma set_without_px_replaces_entry_witness :
  exists kv',
    handle_command 150 store_until_100 ["SET"; "k"; "w"] = Ret (encode (Simple "OK"), kv')
    /\ kv' = <["k" := ValueWithExpiry_plain "w"]> store_until_100
    /\ kv' !! "k" = Some {| value := "w"; expiry := 0; has_expiry := false |}
    /\ forall later, unexpired kv' "k" later.
Proof.
  apply (set_without_px_replaces_entry 150 store_until_100 "SET" "k" "w" []);
    reflexivity.
Defined.

(** C9.  The command name is compared without regard to letter case:
    two requests whose first arguments differ only in letter case have
    the same outcome, reply and store alike; and a first argument that is
    no recognized command name gets the unknown-command error, the store
    untouched. *)
Theorem command_name_case_insensitive (now : Z) (kv : kv_store)
    (a b : string) (args : list string) :
  (differ_only_in_case a b = true ->
     handle_command now kv (a :: args) = handle_command now kv (b :: args))
  /\ (recognized (to_upper a) = false ->
        handle_command now kv (a :: args) = Ret (encode (Error "unknown command"), kv)).
Proof.
  split.
  - intros H. apply handle_command_name. by apply differ_only_in_case_to_upper.
  - intros Hr. by apply handle_command_unknown.
Qed.

Lemma command_name_case_insensitive_witness :
  (handle_command 0 store_with_old ["SeT"; "k"; "v"]
   = handle_command 0 store_with_old ["set"; "k"; "v"])
  /\ handle_command 0 store_with_old ["Flush"; "k"]
     = Ret (encode (Error "unknown command"), store_with_old).
Proof.
  split.
  - apply (proj1 (command_name_case_insensitive 0 store_with_old "SeT" "set" ["k"; "v"])).
    reflexivity.
  - apply (proj2 (command_name_case_insensitive 0 store_with_old "Flush" "Flush" ["k"])).
    reflexivity.
Defined.

(** ** What a request does to the entry of a key *)

(** The store after a call is the store before it, or one insertion by a
    SET, or one deletion of an expired entry by a GET. *)
Lemma handle_command_effect now (kv : kv_store) parts r kv' :
  handle_command now kv parts = Ret (r, kv') ->
  kv' = kv
  \/ (exists cmd k v rest,
        parts = cmd :: k :: rest /\ to_upper cmd = "SET" /\ kv' = <[k := v]> kv)
  \/ (exists cmd k v rest,
        parts = cmd :: k :: rest /\ kv !! k = Some v
        /\ is_expired now v = true /\ kv' = delete k kv).
Proof.
  destruct parts as [|cmd [|k rest]].
  - intros [= _ <-]. by left.
  - unfold handle_command. simpl.
    repeat (case_match; simpl); intros [= _ <-] || discriminate; by left.
  - destruct (String.eqb_spec (to_upper cmd) "SET") as [Hset|Hset].
    + destruct rest as [|val opts].
      { rewrite handle_command_set_short by assumption. discriminate. }
      destruct (px_option opts) eqn:Hpx.
      * destruct opts as [|px [|millis more]]; try discriminate.
        apply String.eqb_eq in Hpx.
        rewrite handle_command_set_px by assumption.
        destruct (stol millis) as [z|e|u]; [|intros [= _ <-]; by left|discriminate].
        destruct (ValueWithExpiry_px now val z) as [v|e|u]; simpl; try discriminate.
        intros [= _ <-]. right; left. by exists cmd, k, v, (val :: px :: millis :: more).
      * rewrite handle_command_set_plain by assumption.
        intros [= _ <-]. right; left.
        by exists cmd, k, (ValueWithExpiry_plain val), (val :: opts).
    + destruct (String.eqb_spec (to_upper cmd) "GET") as [Hget|Hget].
      * rewrite handle_command_get by assumption.
        destruct (kv !! k) as [v|] eqn:Hv; [|intros [= _ <-]; by left].
        destruct (is_expired now v) eqn:Hx; intros [= _ <-]; [|by left].
        right; right. by exists cmd, k, v, rest.
      * apply String.eqb_neq in Hset, Hget.
        unfold handle_command. simpl. rewrite Hset, Hget. simpl.
        repeat (case_match; simpl); intros [= _ <-] || discriminate; by left.
Qed.

Lemma handle_command_keeps_absent now (kv : kv_store) parts r kv' key :
  handle_command now kv parts = Ret (r, kv') ->
  sets_key key parts = false ->
  kv !! key = None ->
  kv' !! key = None.
Proof.
  intros H Hs Hk.
  apply handle_command_effect in H
    as [->|[(cmd & k & v & rest & -> & Hc & ->)|(cmd & k & v & rest & -> & Hv & Hx & ->)]].
  - assumption.
  - simpl in Hs. rewrite Hc in Hs. simpl in Hs.
    apply String.eqb_neq in Hs. by rewrite lookup_insert_ne.
  - rewrite lookup_delete. by case_decide.
Qed.

Lemma handle_command_keeps_entry now (kv : kv_store) parts r kv' key v :
  handle_command now kv parts = Ret (r, kv') ->
  sets_key key parts = false ->
  kv !! key = Some v ->
  is_expired now v = false ->
  kv' !! key = Some v.
Proof.
  intros H Hs Hk Hlive.
  apply handle_command_effect in H
    as [->|[(cmd & k & w & rest & -> & Hc & ->)|(cmd & k & w & rest & -> & Hw & Hx & ->)]].
  - assumption.
  - simpl in Hs. rewrite Hc in Hs. simpl in Hs.
    apply String.eqb_neq in Hs. by rewrite lookup_insert_ne.
  - destruct (decide (k = key)) as [->|Hne].
    + congruence.
    + by rewrite lookup_delete_ne.
Qed.

Lemma run_keeps_absent (reqs : list (Z * list string)) (kv kv' : kv_store) key :
  run kv reqs = Ret kv' ->
  Forall (fun tr => sets_key key (snd tr) = false) reqs ->
  kv !! key = None ->
  kv' !! key = None.
Proof.
  revert kv. induction reqs as [|[t parts] reqs IH]; intros kv Hrun Hall Hk.
  - by injection Hrun as <-.
  - simpl in Hrun. apply Forall_cons in Hall as [Hs Hall].
    destruct (handle_command t kv parts) as [[r kv1]|e|u] eqn:Hc; try discriminate.
    simpl in Hrun. apply (IH kv1); [assumption..|].
    by eapply handle_command_keeps_absent.
Qed.

Lemma run_keeps_entry (reqs : list (Z * list string)) (kv kv' : kv_store) key v :
  run kv reqs = Ret kv' ->
  Forall (fun tr => sets_key key (snd tr) = false /\ is_expired (fst tr) v = false) reqs ->
  kv !! key = Some v ->
  kv' !! key = Some v.
Proof.
  revert kv. induction reqs as [|[t parts] reqs IH]; intros kv Hrun Hall Hk.
  - by injection Hrun as <-.
  - simpl in Hrun. apply Forall_cons in Hall as [[Hs Hx] Hall].
    destruct (handle_command t kv parts) as [[r kv1]|e|u] eqn:Hc; try discriminate.
    simpl in Hrun. apply (IH kv1); [assumption..|].
    by eapply handle_command_keeps_entry.
Qed.

(** A SET that is answered [+OK] has stored an entry with its value. *)
Lemma handle_command_set_stored now (kv kv' : kv_store) cmd key val opts :
  to_upper cmd = "SET" ->
  handle_command now kv (cmd :: key :: val :: opts) = Ret (OK, kv') ->
  exists v, kv' !! key = Some v /\ value v = val.
Proof.
  intros Hc. destruct (px_option opts) eqn:Hpx.
  - destruct opts as [|px [|millis more]]; try discriminate.
    apply String.eqb_eq in Hpx.
    rewrite handle_command_set_px by assumption.
    destruct (stol millis) as [z|e|u]; [|discriminate..].
    unfold ValueWithExpiry_px. case_match; simpl; [|discriminate].
    intros [= <-]. eexists. split; [apply lookup_insert_eq|reflexivity].
  - rewrite handle_command_set_plain by assumption.
    intros [= <-]. eexists. split; [apply lookup_insert_eq|reflexivity].
Qed.

(** C7.  After a SET of [key] to [val] that is answered [+OK], and
    any requests in between that are no SET of [key] and during which the
    entry does not expire, a GET of [key] at a time when the entry is not
    expired returns [val] as a Bulk reply.  A SET of three elements is
    always answered [+OK], and its entry never expires.  And after any
    requests from the empty store, none of them a SET of [key], a GET of
    [key] returns Nil. *)
Theorem set_then_get (now : Z) (key get : string) :
  to_upper get = "GET" ->
  (forall now1 (kv kv1 kv2 : kv_store) set val opts between,
     to_upper set = "SET" ->
     handle_command now1 kv (set :: key :: val :: opts) = Ret (encode (Simple "OK"), kv1) ->
     Forall (fun tr => sets_key key (snd tr) = false /\ unexpired kv1 key (fst tr)) between ->
     run kv1 between = Ret kv2 ->
     unexpired kv1 key now ->
     handle_command now kv2 [get; key] = Ret (encode (Bulk val), kv2))
  /\ (forall now1 (kv : kv_store) set val,
        to_upper set = "SET" ->
        exists kv1,
          handle_command now1 kv [set; key; val] = Ret (encode (Simple "OK"), kv1)
          /\ forall later, unexpired kv1 key later)
  /\ (forall (kv : kv_store) reqs,
        Forall (fun tr => sets_key key (snd tr) = false) reqs ->
        run ∅ reqs = Ret kv ->
        handle_command now kv [get; key] = Ret (encode Nil, kv)).
Proof.
  intros Hget. split; [|split].
  - intros now1 kv kv1 kv2 set val opts between Hset Hok Hbetween Hrun Hlive.
    destruct (handle_command_set_stored _ _ _ _ _ _ _ Hset Hok) as (v & Hv & <-).
    assert (Hv2 : kv2 !! key = Some v).
    { eapply run_keeps_entry; [exact Hrun| |exact Hv].
      eapply Forall_impl; [exact Hbetween|].
      intros tr [Hs Hx]. split; [assumption|]. by apply Hx. }
    rewrite handle_command_get by assumption.
    rewrite Hv2, (Hlive v Hv). reflexivity.
  - intros now1 kv set val Hset. eexists. split.
    + by apply handle_command_set_plain.
    + intros later v. rewrite lookup_insert_eq. by intros [= <-].
  - intros kv reqs Hreqs Hrun.
    rewrite handle_command_get by assumption.
    rewrite (run_keeps_absent reqs ∅ kv key Hrun Hreqs); [reflexivity|].
    apply lookup_empty.
Qed.

Lemma set_then_get_witness :
  (handle_command 0 store_until_100 ["set"; "k"; "bar"]
   = Ret (encode (Simple "OK"), store_with_bar)
   /\ run store_with_bar [(5, ["PING"]); (6, ["SET"; "other"; "x"]); (7, ["GET"; "k"])]
      = Ret (<["other" := ValueWithExpiry_plain "x"]> store_with_bar)
   /\ handle_command 9 (<["other" := ValueWithExpiry_plain "x"]> store_with_bar) ["get"; "k"]
      = Ret (encode (Bulk "bar"), <["other" := ValueWithExpiry_plain "x"]> store_with_bar))
  /\ run ∅ [(1, ["SET"; "other"; "x"]); (2, ["GET"; "k"])]
     = Ret (<["other" := ValueWithExpiry_plain "x"]> ∅)
  /\ handle_command 9 (<["other" := ValueWithExpiry_plain "x"]> ∅) ["get"; "k"]
     = Ret (encode Nil, <["other" := ValueWithExpiry_plain "x"]> ∅).
Proof.
  split; [split; [reflexivity|split; [reflexivity|]] | split; [reflexivity|]].
  - apply (proj1 (set_then_get 9 "k" "get" eq_refl) 0 store_until_100 store_with_bar
             (<["other" := ValueWithExpiry_plain "x"]> store_with_bar) "set" "bar" []
             [(5, ["PING"]); (6, ["SET"; "other"; "x"]); (7, ["GET"; "k"])]).
    + reflexivity.
    + reflexivity.
    + repeat constructor; simpl; intros v; unfold store_with_bar;
        rewrite lookup_insert_eq; by intros [= <-].
    + reflexivity.
    + intros v. unfold store_with_bar. rewrite lookup_insert_eq. by intros [= <-].
  - apply (proj2 (proj2 (set_then_get 9 "k" "get" eq_refl))
             (<["other" := ValueWithExpiry_plain "x"]> ∅)
             [(1, ["SET"; "other"; "x"]); (2, ["GET"; "k"])]).
    + repeat constructor.
    + reflexivity.
Defined.

(** ** The receive loop *)

Lemma find_crlf_bound (s : string) (pos : nat) :
  find_crlf s = Some pos -> (pos + 2 <= String.length s)%nat.
Proof.
  revert pos. induction s as [|c s IH]; intros pos; [discriminate|].
  cbn [find_crlf]. destruct (starts_with_crlf (String c s)) eqn:E.
  - intros [= <-]. destruct s; [discriminate|]. simpl. lia.
  - destruct (find_crlf s) as [p|]; [|discriminate].
    intros [= <-]. specialize (IH p eq_refl). simpl. lia.
Qed.

Lemma length_drop_str (n : nat) (s : string) :
  String.length (drop_str n s) = (String.length s - n)%nat.
Proof.
  revert s. induction n as [|n IH]; intros [|c s]; simpl; try reflexivity.
  apply IH.
Qed.

Lemma append_cons (c : ascii) (s t : string) : String c s +:+ t = String c (s +:+ t).
Proof. reflexivity. Qed.

Lemma append_nil (t : string) : EmptyString +:+ t = t.
Proof. reflexivity. Qed.


(** Fuel beyond the length of the buffer changes nothing. *)
Lemma process_loop_fuel (clock : nat -> Z) (fuel1 fuel2 k : nat) (kv : kv_store)
    (buf : string) :
  (String.length buf <= fuel1)%nat ->
  (String.length buf <= fuel2)%nat ->
  process_loop fuel1 clock k kv buf = process_loop fuel2 clock k kv buf.
Proof.
  revert fuel2 k kv buf.
  induction fuel1 as [|fuel1 IH]; intros [|fuel2] k kv buf H1 H2;
    simpl; destruct (find_crlf buf) as [pos|] eqn:E; try reflexivity;
    try (apply find_crlf_bound in E; lia).
  destruct (parse_resp _) as [parts|e|u]; try reflexivity.
  destruct (handle_command _ _ _) as [[response kv']|e|u]; try reflexivity.
  f_equal. apply find_crlf_bound in E.
  apply IH; rewrite length_drop_str; lia.
Qed.

(** The loop, one iteration unrolled: the defining equation of the
    [while] in the source. *)
Lemma process_buffer_eq (clock : nat -> Z) (k : nat) (kv : kv_store) (buf : string) :
  process_buffer clock k kv buf =
  match find_crlf buf with
  | Some pos =>
      match parse_resp (take_str (pos + 2) buf) with
      | Ret parts =>
          match handle_command (clock k) kv parts with
          | Ret (response, kv') =>
              preceded_by [parts] [response]
                (process_buffer clock (S k) kv' (drop_str (pos + 2) buf))
          | Throw e => mk_session [parts] [] kv (drop_str (pos + 2) buf) k (Terminated e)
          | Undefined u => mk_session [parts] [] kv (drop_str (pos + 2) buf) k (Erratic u)
          end
      | Throw e => mk_session [] [] kv (drop_str (pos + 2) buf) k (Terminated e)
      | Undefined u => mk_session [] [] kv (drop_str (pos + 2) buf) k (Erratic u)
      end
  | None => mk_session [] [] kv buf k Receiving
  end.
Proof.
  unfold process_buffer.
  destruct (find_crlf buf) as [pos|] eqn:E.
  - pose proof (find_crlf_bound _ _ E) as Hb.
    destruct (String.length buf) as [|n] eqn:Hn; [lia|].
    simpl. rewrite E.
    destruct (parse_resp _) as [parts|e|u]; try reflexivity.
    destruct (handle_command _ _ _) as [[response kv']|e|u]; try reflexivity.
    f_equal. apply process_loop_fuel; rewrite ?length_drop_str; lia.
  - destruct (String.length buf); simpl; rewrite E; reflexivity.
Qed.

(** The loop itself never closes the connection: only a [recv] that
    returns [<= 0] does. *)
Lemma process_loop_not_closed (clock : nat -> Z) (fuel k : nat) (kv : kv_store)
    (buf : string) :
  status (process_loop fuel clock k kv buf) <> Closed.
Proof.
  revert k kv buf. induction fuel as [|fuel IH]; intros k kv buf; simpl.
  - by destruct (find_crlf buf).
  - destruct (find_crlf buf) as [pos|]; [|done].
    destruct (parse_resp _) as [parts|e|u]; try done.
    destruct (handle_command _ _ _) as [[response kv']|e|u]; try done.
    apply IH.
Qed.

(** Without a CR LF in the buffer nothing is consumed and nothing sent. *)
Lemma process_buffer_no_crlf (clock : nat -> Z) (k : nat) (kv : kv_store) (buf : string) :
  find_crlf buf = None ->
  process_buffer clock k kv buf = mk_session [] [] kv buf k Receiving.
Proof.
  intros E. rewrite process_buffer_eq, E. reflexivity.
Qed.

Lemma parse_resp_wrong_sigil (command : string) :
  wrong_sigil (first_line command) = true -> parse_resp command = Ret [].
Proof.
  unfold parse_resp, first_line, wrong_sigil.
  destruct (getline _ _) as [iss line]. simpl. by intros ->.
Qed.

Lemma parse_resp_negative_length (command : string) :
  wrong_sigil (first_line command) = false ->
  negative_length (first_line command) = true ->
  parse_resp command = Ret [].
Proof.
  unfold parse_resp, first_line, wrong_sigil, negative_length.
  destruct (getline _ _) as [iss line]. simpl. intros ->.
  destruct (stoi _) as [n|e|u]; try discriminate.
  intros Hn. simpl. replace (Z.to_nat n) with 0%nat by lia. reflexivity.
Qed.

(** ** Lines ended by CR LF *)

Lemma append_assoc (s t u : string) : (s +:+ t) +:+ u = s +:+ (t +:+ u).
Proof.
  induction s as [|c s IH]; [reflexivity|].
  rewrite !append_cons. by rewrite IH.
Qed.

(** Once the input is used up, the loop of [parse_resp] adds nothing:
    the first [getline] that fails leaves an empty [line], and the later
    ones leave it as it is. *)
Lemma parse_resp_loop_exhausted (n : nat) (iss : istringstream) (line : string)
    (parts : list string) :
  unread iss = EmptyString ->
  good iss = true \/ front line <> "$"%char ->
  parse_resp_loop n iss line parts = parts.
Proof.
  revert iss line. induction n as [|n IH]; intros [rest ok] line Hrest Hinv;
    [reflexivity|].
  simpl in Hrest. subst rest. cbn [parse_resp_loop].
  destruct ok.
  - simpl. apply IH; [reflexivity|]. right. discriminate.
  - destruct Hinv as [Hgood|Hline]; [discriminate|].
    unfold getline at 1. cbn [good].
    destruct (Ascii.eqb_spec (front line) "$") as [E|_]; [contradiction|].
    simpl. apply IH; [reflexivity|]. by right.
Qed.

Lemma split_line_lf_free (l : string) :
  lf_free l = true ->
  split_line (l +:+ CRLF) = Some (l +:+ String CR EmptyString, EmptyString).
Proof.
  induction l as [|c l IH]; intros H; [reflexivity|].
  simpl in H. apply andb_prop in H as [Hc Hl].
  rewrite append_cons. cbn [split_line].
  apply negb_true_iff in Hc. rewrite Hc, (IH Hl). reflexivity.
Qed.

(** A command of one line, the only kind that a stream of CR LF lines
    gives the session, is parsed as the empty request, unless [std::stoi]
    throws on its array length. *)
Lemma parse_resp_one_line (l : string) :
  lf_free l = true ->
  parse_resp (l +:+ CRLF) = Ret [] \/ exists e, parse_resp (l +:+ CRLF) = Throw e.
Proof.
  intros Hl. unfold parse_resp, getline. cbn [good unread].
  rewrite (split_line_lf_free l Hl).
  destruct (negb _); [by left|].
  destruct (stoi _) as [n|e|u] eqn:E; simpl.
  - left. by rewrite parse_resp_loop_exhausted; [|reflexivity|left].
  - right. by exists e.
  - by apply stoi_defined in E.
Qed.

Lemma lf_only_after_cr_flag (s : string) :
  front s <> LF -> lf_only_after_cr true s = lf_only_after_cr false s.
Proof.
  destruct s as [|c s]; [reflexivity|]. simpl. intros Hc.
  destruct (Ascii.eqb_spec c LF) as [->|_]; [contradiction|reflexivity].
Qed.

(** In a buffer whose LF all follow a CR, the bytes cut at the first
    CR LF are one line, and what is left has the same shape. *)
Lemma first_crlf_cuts_a_line (buf : string) (pos : nat) :
  lf_only_after_cr false buf = true ->
  find_crlf buf = Some pos ->
  lf_free (take_str pos buf) = true
  /\ take_str (pos + 2) buf = take_str pos buf +:+ CRLF
  /\ lf_only_after_cr false (drop_str (pos + 2) buf) = true.
Proof.
  revert pos. induction buf as [|c buf IH]; intros pos Hshape Hfind;
    [discriminate|].
  cbn [find_crlf] in Hfind. cbn [lf_only_after_cr] in Hshape.
  apply andb_prop in Hshape as [Hc Hshape]. rewrite orb_false_r in Hc.
  destruct (starts_with_crlf (String c buf)) eqn:Hstart.
  - injection Hfind as <-. destruct buf as [|d buf]; [discriminate|].
    simpl in Hstart. apply andb_prop in Hstart as [Hcr Hlf].
    apply Ascii.eqb_eq in Hcr, Hlf. subst c d.
    repeat split; try reflexivity.
    simpl in Hshape. exact Hshape.
  - destruct (find_crlf buf) as [p|] eqn:Hp; [|discriminate].
    injection Hfind as <-.
    assert (Hbuf : lf_only_after_cr false buf = true).
    { destruct (Ascii.eqb_spec c CR) as [->|_]; [|exact Hshape].
      rewrite <- lf_only_after_cr_flag; [exact Hshape|].
      destruct buf as [|d buf]; [discriminate|]. simpl. intros ->.
      discriminate Hstart. }
    destruct (IH p Hbuf eq_refl) as (H1 & H2 & H3).
    repeat split.
    + simpl. by rewrite Hc, H1.
    + simpl. simpl in H2. by rewrite H2.
    + exact H3.
Qed.

(** From a buffer whose LF all follow a CR the session decodes nothing
    but empty requests. *)
Lemma process_loop_crlf_lines (clock : nat -> Z) (fuel k : nat) (kv : kv_store)
    (buf : string) :
  lf_only_after_cr false buf = true ->
  Forall (fun parts => parts = []) (requests (process_loop fuel clock k kv buf)).
Proof.
  revert k kv buf. induction fuel as [|fuel IH]; intros k kv buf Hshape; simpl.
  - destruct (find_crlf buf); constructor.
  - destruct (find_crlf buf) as [pos|] eqn:Hfind; [|constructor].
    destruct (first_crlf_cuts_a_line buf pos Hshape Hfind) as (Hline & -> & Hrest).
    destruct (parse_resp_one_line _ Hline) as [->|[e ->]]; [|constructor].
    simpl. constructor; [reflexivity|]. by apply IH.
Qed.

Lemma lf_free_only_after_cr (b : bool) (s : string) :
  lf_free s = true -> lf_only_after_cr b s = true.
Proof.
  revert b. induction s as [|c s IH]; intros b H; [reflexivity|].
  simpl in *. apply andb_prop in H as [Hc Hs]. by rewrite Hc, IH.
Qed.

Lemma lf_only_after_cr_line (b : bool) (s t : string) :
  lf_only_after_cr b s = true ->
  lf_only_after_cr b (s +:+ CRLF +:+ t) = lf_only_after_cr false t.
Proof.
  revert b. induction s as [|c s IH]; intros b H; [reflexivity|].
  simpl in H. apply andb_prop in H as [Hc Hs].
  rewrite append_cons. cbn [lf_only_after_cr]. by rewrite Hc, IH.
Qed.

Lemma decimal_lf_free (n : nat) : lf_free (decimal n) = true.
Proof.
  unfold decimal. induction (Nat.to_uint n); simpl; auto.
Qed.

Lemma frame_element_assoc (arg rest : string) :
  frame_element arg +:+ rest
  = ("$" +:+ decimal (String.length arg)) +:+ CRLF +:+ (arg +:+ CRLF +:+ rest).
Proof. unfold frame_element. by rewrite !append_assoc. Qed.

Lemma sigil_decimal_shape (b : bool) (sigil : ascii) (n : nat) :
  Ascii.eqb sigil LF = false ->
  lf_only_after_cr b (String sigil EmptyString +:+ decimal n) = true.
Proof.
  intros Hs. apply lf_free_only_after_cr.
  rewrite append_cons, append_nil. simpl. rewrite Hs. apply decimal_lf_free.
Qed.

Lemma frame_elements_shape (args : list string) :
  Forall (fun arg => lf_only_after_cr false arg = true) args ->
  lf_only_after_cr false (frame_elements args) = true.
Proof.
  induction 1 as [|arg args Harg _ IH]; [reflexivity|].
  cbn [frame_elements]. rewrite frame_element_assoc.
  rewrite lf_only_after_cr_line by (by apply sigil_decimal_shape).
  by rewrite lf_only_after_cr_line.
Qed.

Lemma frame_shape (args : list string) :
  Forall (fun arg => lf_only_after_cr false arg = true) args ->
  lf_only_after_cr false (frame args) = true.
Proof.
  intros H.
  replace (frame args)
    with (("*" +:+ decimal (length args)) +:+ CRLF +:+ frame_elements args)
    by (unfold frame; by rewrite !append_assoc).
  rewrite lf_only_after_cr_line by (by apply sigil_decimal_shape).
  by apply frame_elements_shape.
Qed.

(** Whatever the arguments of a frame, as long as no LF stands in them
    without a CR before it, the session that receives the frame handles
    only empty requests: no argument of any frame is recovered.  An
    argument may hold CR LF. *)
Lemma frame_decodes_to_empty_requests (clock : nat -> Z) (kv : kv_store)
    (args : list string) :
  Forall (fun arg => lf_only_after_cr false arg = true) args ->
  Forall (fun parts => parts = []) (requests (handle_client clock kv [frame args])).
Proof.
  intros H. unfold handle_client. cbn [handle_client_from].
  destruct (String.length (frame args) =? 0)%nat; [constructor|].
  rewrite append_nil.
  pose proof (process_loop_crlf_lines clock (String.length (frame args)) 0 kv
                (frame args) (frame_shape args H)) as Hreq.
  fold (process_buffer clock 0 kv (frame args)) in Hreq.
  destruct (status (process_buffer clock 0 kv (frame args))); try exact Hreq.
  simpl. by rewrite app_nil_r.
Qed.

(** Whenever the buffer holds a CR LF the loop consumes bytes, at least
    those up to and including it, whether or not they end a frame. *)
Lemma process_loop_leftover (clock : nat -> Z) (fuel k : nat) (kv : kv_store)
    (buf : string) :
  (String.length (incomplete_data (process_loop fuel clock k kv buf))
   <= String.length buf)%nat.
Proof.
  revert k kv buf. induction fuel as [|fuel IH]; intros k kv buf; simpl.
  - destruct (find_crlf buf); simpl; lia.
  - destruct (find_crlf buf) as [pos|] eqn:Hfind; [|simpl; lia].
    assert (Hdrop : (String.length (drop_str (pos + 2) buf) <= String.length buf)%nat)
      by (rewrite length_drop_str; lia).
    destruct (parse_resp _) as [parts|e|u]; [|exact Hdrop..].
    destruct (handle_command _ _ _) as [[response kv']|e|u]; [|exact Hdrop..].
    simpl. etransitivity; [apply IH|exact Hdrop].
Qed.

Lemma process_buffer_consumes (clock : nat -> Z) (k : nat) (kv : kv_store)
    (buf : string) (pos : nat) :
  find_crlf buf = Some pos ->
  (String.length (incomplete_data (process_buffer clock k kv buf)) + (pos + 2)
   <= String.length buf)%nat.
Proof.
  intros Hfind. pose proof (find_crlf_bound _ _ Hfind) as Hb.
  rewrite process_buffer_eq, Hfind.
  assert (Hdrop : (String.length (drop_str (pos + 2) buf) + (pos + 2)
                   <= String.length buf)%nat)
    by (rewrite length_drop_str; lia).
  destruct (parse_resp _) as [parts|e|u]; [|exact Hdrop..].
  destruct (handle_command _ _ _) as [[response kv']|e|u]; [|exact Hdrop..].
  simpl. unfold process_buffer.
  pose proof (process_loop_leftover clock (String.length (drop_str (pos + 2) buf))
                (S k) kv' (drop_str (pos + 2) buf)).
  lia.
Qed.

(** An array length that is no number makes [std::stoi] throw in
    [parse_resp]; nothing in the thread catches it, no response is
    sent. *)
Lemma non_numeric_length_terminates (clock : nat -> Z) (k : nat) (kv : kv_store)
    (buf : string) (pos : nat) :
  find_crlf buf = Some pos ->
  wrong_sigil (first_line (take_str (pos + 2) buf)) = false ->
  non_numeric_length (first_line (take_str (pos + 2) buf)) = true ->
  process_buffer clock k kv buf
  = mk_session [] [] kv (drop_str (pos + 2) buf) k (Terminated invalid_argument).
Proof.
  intros Hfind Hs Hn. rewrite process_buffer_eq, Hfind.
  unfold parse_resp, first_line, wrong_sigil, non_numeric_length in *.
  destruct (getline _ _) as [iss line]. simpl in *. rewrite Hs.
  destruct (stoi _) as [n|[]|u]; try discriminate. reflexivity.
Qed.

(** ** The claims on the decoder and the session *)

(** C1 (the code departs from the claim).  On the valid frame of
    [PING], received whole, the session cuts at every CR LF and hands
    [parse_resp] one line at a time: three empty requests are handled,
    three times the empty-command error is sent, and the argument [PING]
    is never recovered.  Given the whole frame, [parse_resp] splits at the
    LF alone and returns the argument with the CR still on it. *)
Theorem valid_frame_is_not_decoded (clock : nat -> Z) (kv : kv_store) :
  ping_frame = frame ["PING"]
  /\ handle_client clock kv [ping_frame]
     = mk_session [[]; []; []]
         [encode (Error "empty command"); encode (Error "empty command");
          encode (Error "empty command")]
         kv EmptyString 3 Closed
  /\ requests (handle_client clock kv [ping_frame]) <> [["PING"]]
  /\ parse_resp ping_frame = Ret ["PING" +:+ String CR EmptyString].
Proof.
  assert (E : handle_client clock kv [ping_frame]
              = mk_session [[]; []; []]
                  [encode (Error "empty command"); encode (Error "empty command");
                   encode (Error "empty command")]
                  kv EmptyString 3 Closed) by reflexivity.
  split; [reflexivity|]. split; [exact E|]. split; [|reflexivity].
  rewrite E. discriminate.
Qed.

(** C4, as stated, fails: a line with a wrong leading sigil is decoded
    as an empty request, not as a protocol error; it is answered with the
    empty-command error, the thread goes back to [recv], and the request
    that arrives next on the connection is handled. *)
Lemma malformed_line_keeps_connection_open :
  wrong_sigil (first_line question_line) = true
  /\ parse_resp question_line = Ret []
  /\ status (process_buffer still_clock 0 ∅ question_line) <> Closed
  /\ status (process_buffer still_clock 0 ∅ question_line) = Receiving
  /\ handle_client still_clock ∅ [question_line; ping_lines]
     = mk_session [[]; ["PING"]]
         [encode (Error "empty command"); encode (Simple "PONG")]
         ∅ EmptyString 2 Closed.
Proof.
  repeat split; try reflexivity. discriminate.
Qed.

(** C4, amended.  A command whose first line has a wrong leading sigil,
    or a negative array length, is decoded as the empty request.  The
    session answers it with the empty-command error, leaves the store as
    it was, and goes on with the bytes that follow; the connection is not
    closed. *)
Theorem malformed_header_is_answered_and_skipped (clock : nat -> Z) (k : nat)
    (kv : kv_store) (buf : string) (pos : nat) :
  find_crlf buf = Some pos ->
  wrong_sigil (first_line (take_str (pos + 2) buf))
  || negative_length (first_line (take_str (pos + 2) buf)) = true ->
  parse_resp (take_str (pos + 2) buf) = Ret []
  /\ process_buffer clock k kv buf
     = preceded_by [[]] [encode (Error "empty command")]
         (process_buffer clock (S k) kv (drop_str (pos + 2) buf))
  /\ status (process_buffer clock k kv buf) <> Closed.
Proof.
  intros Hpos Hbad.
  assert (Hparse : parse_resp (take_str (pos + 2) buf) = Ret []).
  { destruct (wrong_sigil _) eqn:Hs.
    - by apply parse_resp_wrong_sigil.
    - by apply parse_resp_negative_length. }
  split; [exact Hparse|]. split.
  - rewrite process_buffer_eq, Hpos, Hparse. reflexivity.
  - apply process_loop_not_closed.
Qed.

Lemma malformed_header_is_answered_and_skipped_witness :
  parse_resp (take_str (1 + 2) (question_line +:+ ping_lines)) = Ret []
  /\ process_buffer still_clock 0 ∅ (question_line +:+ ping_lines)
     = preceded_by [[]] [encode (Error "empty command")]
         (process_buffer still_clock 1 ∅ (drop_str (1 + 2) (question_line +:+ ping_lines)))
  /\ status (process_buffer still_clock 0 ∅ (question_line +:+ ping_lines)) <> Closed.
Proof.
  apply (malformed_header_is_answered_and_skipped still_clock 0 ∅
           (question_line +:+ ping_lines) 1); reflexivity.
Defined.

(** C5 (the code departs from the claim).  A buffer that holds a frame
    of which the last bytes are still missing is not left alone: the two
    lines that are complete are consumed and answered, each with the
    empty-command error, and only the bytes after the last CR LF stay
    buffered.  When the missing bytes arrive they are handled as a
    third command of their own. *)
Theorem partial_frame_is_consumed (clock : nat -> Z) (kv : kv_store) :
  frame ["PING"] = ping_frame_cut +:+ "NG" +:+ CRLF
  /\ process_buffer clock 0 kv ping_frame_cut
     = mk_session [[]; []]
         [encode (Error "empty command"); encode (Error "empty command")]
         kv "PI" 2 Receiving
  /\ incomplete_data (process_buffer clock 0 kv ping_frame_cut) <> ping_frame_cut
  /\ handle_client clock kv [ping_frame_cut; "NG" +:+ CRLF]
     = mk_session [[]; []; []]
         [encode (Error "empty command"); encode (Error "empty command");
          encode (Error "empty command")]
         kv EmptyString 3 Closed.
Proof.
  assert (E : process_buffer clock 0 kv ping_frame_cut
              = mk_session [[]; []]
                  [encode (Error "empty command"); encode (Error "empty command")]
                  kv "PI" 2 Receiving) by reflexivity.
  split; [reflexivity|]. split; [exact E|]. split; [|reflexivity].
  rewrite E. discriminate.
Qed.

(** * Further properties of the code *)

(** ** Numbers in decimal and [strtol] *)

Ltac eval_code :=
  repeat match goal with
  | |- context [code (Ascii ?a ?b ?c ?d ?e ?f ?g ?h)] =>
      let v := eval vm_compute in (code (Ascii a b c d e f g h)) in
      change (code (Ascii a b c d e f g h)) with v
  end.

Lemma read_digits_uint (d : Decimal.uint) (acc : Z) (tail : string) :
  0 <= acc ->
  read_digits acc (NilEmpty.string_of_uint d +:+ tail)
  = read_digits (Z.of_nat (Nat.of_uint_acc d (Z.to_nat acc))) tail.
Proof.
  revert acc. induction d; intros acc Hacc; cbn [NilEmpty.string_of_uint];
    [rewrite append_nil; cbn [Nat.of_uint_acc]; by rewrite Z2Nat.id|..];
    rewrite append_cons; cbn [read_digits Nat.of_uint_acc];
    rewrite Nat.tail_mul_spec;
    (replace (isdigit _) with true by reflexivity);
    eval_code; rewrite IHd by lia; do 3 f_equal; lia.
Qed.

Lemma decimal_front_digit (n : nat) :
  exists c s, decimal n = String c s /\ isdigit c = true.
Proof.
  unfold decimal.
  pose proof (DecimalFacts.unorm_nonnil (Nat.to_uint n)) as Hn.
  rewrite <- DecimalNat.Unsigned.to_of, DecimalNat.Unsigned.of_to in Hn.
  destruct (Nat.to_uint n); cbn [NilEmpty.string_of_uint];
    try (eexists _, _; split; reflexivity).
  contradiction.
Qed.

Lemma read_digits_decimal (n : nat) (tail : string) :
  isdigit (front tail) = false ->
  read_digits 0 (decimal n +:+ tail) = Z.of_nat n.
Proof.
  intros Htail. unfold decimal. rewrite read_digits_uint by lia.
  change (Nat.of_uint_acc (Nat.to_uint n) (Z.to_nat 0)) with (Nat.of_uint (Nat.to_uint n)).
  rewrite DecimalNat.Unsigned.of_to.
  destruct tail as [|t tail]; [reflexivity|]. simpl in *. by rewrite Htail.
Qed.

Lemma sign_of_digit (c : ascii) (s : string) :
  isdigit c = true ->
  match String c s with
  | String "-"%char r => (true, r)
  | String "+"%char r => (false, r)
  | _ => (false, String c s)
  end = (false, String c s).
Proof.
  intros Hc. destruct c as [[] [] [] [] [] [] [] []]; try reflexivity; discriminate.
Qed.

(** [strtol] reads back a number printed in decimal, whatever follows
    it, as long as no digit follows. *)
Lemma strtol10_decimal (n : nat) (tail : string) :
  isdigit (front tail) = false ->
  strtol10 (decimal n +:+ tail) = Some (Z.of_nat n).
Proof.
  intros Htail.
  destruct (decimal_front_digit n) as (c & s & E & Hc).
  pose proof (read_digits_decimal n tail Htail) as Hval.
  unfold strtol10. rewrite E in *. rewrite append_cons in *. cbn [skip_space].
  assert (Hsp : isspace c = false) by (unfold isdigit, isspace in *; lia).
  rewrite Hsp, (sign_of_digit c _ Hc), Hc. by rewrite Hval.
Qed.

Lemma skip_space_app (ws s : string) :
  all_space ws = true -> skip_space (ws +:+ s) = skip_space s.
Proof.
  induction ws as [|c ws IH]; intros H; [reflexivity|].
  simpl in H. apply andb_prop in H as [Hc Hws].
  rewrite append_cons. cbn [skip_space]. rewrite Hc. by apply IH.
Qed.

(** With white space and a minus sign before the digits [strtol] gives
    the negative number. *)
Lemma strtol10_negative (ws : string) (n : nat) (tail : string) :
  all_space ws = true ->
  isdigit (front tail) = false ->
  strtol10 (ws +:+ "-" +:+ decimal n +:+ tail) = Some (- Z.of_nat n).
Proof.
  intros Hws Htail.
  destruct (decimal_front_digit n) as (c & s & E & Hc).
  pose proof (read_digits_decimal n tail Htail) as Hval.
  unfold strtol10. rewrite skip_space_app by assumption.
  rewrite append_cons, append_nil. cbn [skip_space].
  replace (isspace "-") with false by reflexivity.
  rewrite E in *. rewrite append_cons in *. rewrite Hc. by rewrite Hval.
Qed.

(** ** parse_resp on requests in lines *)

Lemma split_line_line (l rest : string) :
  lf_free l = true -> split_line (line l +:+ rest) = Some (l, rest).
Proof.
  unfold line. induction l as [|c l IH]; intros H; [reflexivity|].
  simpl in H. apply andb_prop in H as [Hc Hl]. apply negb_true_iff in Hc.
  rewrite !append_cons. cbn [split_line]. by rewrite Hc, (IH Hl).
Qed.

Lemma getline_line (l rest old : string) :
  lf_free l = true ->
  getline (mk_iss (line l +:+ rest) true) old = (mk_iss rest true, l).
Proof.
  intros H. unfold getline. cbn [good unread]. by rewrite split_line_line.
Qed.

Lemma split_line_none (s : string) : lf_free s = true -> split_line s = None.
Proof.
  induction s as [|c s IH]; intros H; [reflexivity|].
  simpl in H. apply andb_prop in H as [Hc Hs]. apply negb_true_iff in Hc.
  cbn [split_line]. by rewrite Hc, (IH Hs).
Qed.

Lemma lf_free_app (s t : string) :
  lf_free (s +:+ t) = lf_free s && lf_free t.
Proof.
  induction s as [|c s IH]; [reflexivity|].
  rewrite append_cons. simpl. rewrite IH. by rewrite andb_assoc.
Qed.

(** The loop on the lines of the elements: one payload per iteration,
    the length fields unread. *)
Lemma parse_resp_loop_elements (m : nat) (elems : list (string * string))
    (rest old : string) (parts : list string) :
  (m <= length elems)%nat ->
  Forall (fun e => lf_free (fst e) = true /\ lf_free (snd e) = true) elems ->
  parse_resp_loop m (mk_iss (element_lines elems +:+ rest) true) old parts
  = parts ++ take m (map snd elems).
Proof.
  revert elems old parts. induction m as [|m IH]; intros elems old parts Hm Hall.
  - simpl. by rewrite app_nil_r.
  - destruct elems as [|[len payload] elems]; [simpl in Hm; lia|].
    apply Forall_cons in Hall as [[Hlen Hpay] Hall]. simpl in Hlen, Hpay.
    cbn [parse_resp_loop element_lines]. rewrite !append_assoc.
    rewrite getline_line by (rewrite append_cons, append_nil; simpl; exact Hlen).
    rewrite append_cons. cbn [front]. simpl negb. cbv iota.
    rewrite getline_line by exact Hpay.
    rewrite IH by (simpl in Hm; try lia; assumption).
    simpl. by rewrite <- app_assoc.
Qed.

Lemma parse_resp_of_lines (count : string) (elems : list (string * string))
    (rest : string) (n : Z) :
  lf_free count = true ->
  Forall (fun e => lf_free (fst e) = true /\ lf_free (snd e) = true) elems ->
  stoi count = Ret n ->
  n <= Z.of_nat (length elems) ->
  parse_resp (request_lines count elems +:+ rest)
  = Ret (take (Z.to_nat n) (map snd elems)).
Proof.
  intros Hcount Helems Hn Hle.
  unfold parse_resp, request_lines. rewrite append_assoc.
  rewrite getline_line by (rewrite append_cons, append_nil; simpl; exact Hcount).
  rewrite append_cons, append_nil. cbn [front substr_from1]. simpl negb. cbv iota.
  rewrite Hn. cbn [bind].
  rewrite parse_resp_loop_elements by (try lia; assumption).
  reflexivity.
Qed.


(** From a request in lines [parse_resp] returns the payload lines, as
    many as the count field says, byte for byte.  The length fields are
    not read, and neither are the elements beyond the count nor what
    follows the request. *)
Theorem parse_resp_request_lines (count : string) (elems : list (string * string))
    (rest : string) (n : Z) :
  lf_free count = true ->
  Forall (fun e => lf_free (fst e) = true /\ lf_free (snd e) = true) elems ->
  stoi count = Ret n ->
  n <= Z.of_nat (length elems) ->
  parse_resp (request_lines count elems +:+ rest)
  = Ret (take (Z.to_nat n) (map snd elems)).
Proof. apply parse_resp_of_lines. Qed.

Lemma parse_resp_request_lines_witness :
  parse_resp (request_lines "2" [("3", "GET"); ("many", "k"); ("1", "x")] +:+ "tail")
  = Ret ["GET"; "k"].
Proof.
  apply (parse_resp_request_lines "2" [("3", "GET"); ("many", "k"); ("1", "x")] "tail" 2).
  - reflexivity.
  - repeat constructor.
  - reflexivity.
  - simpl. lia.
Defined.

Lemma append_nil_r (s : string) : s +:+ EmptyString = s.
Proof.
  induction s as [|c s IH]; [reflexivity|]. rewrite append_cons. by rewrite IH.
Qed.

Lemma frame_elements_as_lines (args : list string) :
  frame_elements args
  = element_lines (map (fun a => (with_cr (decimal (String.length a)), with_cr a)) args).
Proof.
  induction args as [|a args IH]; [reflexivity|].
  cbn [frame_elements map element_lines]. rewrite IH.
  unfold frame_element, line, with_cr, CRLF.
  rewrite !append_assoc, !append_cons, !append_nil. reflexivity.
Qed.

Lemma frame_as_lines (args : list string) :
  frame args
  = request_lines (with_cr (decimal (length args)))
      (map (fun a => (with_cr (decimal (String.length a)), with_cr a)) args).
Proof.
  unfold frame, request_lines. rewrite frame_elements_as_lines.
  unfold line, with_cr, CRLF.
  rewrite !append_assoc, !append_cons, !append_nil. reflexivity.
Qed.

Lemma stoi_decimal (n : nat) (tail : string) :
  isdigit (front tail) = false ->
  Z.of_nat n <= INT_MAX ->
  stoi (decimal n +:+ tail) = Ret (Z.of_nat n).
Proof.
  intros Ht Hn. unfold stoi. rewrite strtol10_decimal by assumption.
  replace ((INT_MIN <=? Z.of_nat n) && (Z.of_nat n <=? INT_MAX)) with true;
    [reflexivity|].
  symmetry. apply andb_true_intro. unfold INT_MIN. split; lia.
Qed.

(** Given a whole frame of the wire protocol, lines ended by CR LF,
    [parse_resp] returns every argument with a CR after it: the CR of
    the line end stays on the line that [std::getline] cuts at the LF. *)
Theorem parse_resp_frame_keeps_cr (args : list string) :
  Forall (fun a => lf_free a = true) args ->
  Z.of_nat (length args) <= INT_MAX ->
  parse_resp (frame args) = Ret (map with_cr args).
Proof.
  intros Hargs Hlen.
  rewrite frame_as_lines, <- (append_nil_r (request_lines _ _)).
  rewrite (parse_resp_of_lines _ _ _ (Z.of_nat (length args))).
  - rewrite Nat2Z.id, map_map. cbn [snd].
    rewrite <- (length_map with_cr args) at 1. by rewrite firstn_all.
  - unfold with_cr. rewrite lf_free_app, decimal_lf_free. reflexivity.
  - apply Forall_map. eapply Forall_impl; [exact Hargs|].
    intros a Ha. cbn [fst snd]. unfold with_cr.
    rewrite !lf_free_app, decimal_lf_free, Ha. by split.
  - by apply stoi_decimal.
  - rewrite length_map. lia.
Qed.

Lemma parse_resp_frame_keeps_cr_witness :
  parse_resp (frame ["SET"; "k"; "v"]) = Ret [with_cr "SET"; with_cr "k"; with_cr "v"].
Proof.
  apply (parse_resp_frame_keeps_cr ["SET"; "k"; "v"]).
  - repeat constructor.
  - unfold INT_MAX. simpl. lia.
Defined.

(** [std::stoi] and [std::stol] read back a number printed in decimal,
    whatever follows its digits, as long as it fits; beyond [INT_MAX],
    respectively [LONG_MAX], they throw [std::out_of_range]. *)
Theorem stoi_stol_read_decimal (n : nat) (tail : string) :
  isdigit (front tail) = false ->
  (Z.of_nat n <= INT_MAX -> stoi (decimal n +:+ tail) = Ret (Z.of_nat n))
  /\ (INT_MAX < Z.of_nat n -> stoi (decimal n +:+ tail) = Throw out_of_range)
  /\ (Z.of_nat n <= LONG_MAX -> stol (decimal n +:+ tail) = Ret (Z.of_nat n))
  /\ (LONG_MAX < Z.of_nat n -> stol (decimal n +:+ tail) = Throw out_of_range).
Proof.
  intros Ht. unfold stoi, stol. rewrite strtol10_decimal by assumption.
  unfold INT_MIN, LONG_MIN.
  repeat split; intros Hn.
  - replace (_ && _) with true; [reflexivity|]. symmetry. apply andb_true_intro. split; lia.
  - replace (_ && _) with false; [reflexivity|]. symmetry. apply andb_false_intro2. lia.
  - replace (_ && _) with true; [reflexivity|]. symmetry. apply andb_true_intro. split; lia.
  - replace (_ && _) with false; [reflexivity|]. symmetry. apply andb_false_intro2. lia.
Qed.

Lemma stoi_stol_read_decimal_witness :
  stoi "100abc" = Ret 100 /\ stol "100abc" = Ret 100.
Proof.
  pose proof (stoi_stol_read_decimal 100 "abc" eq_refl) as (Hi & _ & Hl & _).
  split; [apply Hi | apply Hl]; vm_compute; discriminate.
Defined.

(** [std::stol] accepts white space and a minus sign before the digits,
    and gives the negative number: a negative millis argument converts. *)
Theorem stol_reads_negative (ws : string) (n : nat) (tail : string) :
  all_space ws = true ->
  isdigit (front tail) = false ->
  Z.of_nat n <= - LONG_MIN ->
  stol (ws +:+ "-" +:+ decimal n +:+ tail) = Ret (- Z.of_nat n).
Proof.
  intros Hws Ht Hn. unfold stol. rewrite strtol10_negative by assumption.
  replace (_ && _) with true; [reflexivity|].
  symmetry. apply andb_true_intro. unfold LONG_MAX, LONG_MIN in *. split; lia.
Qed.

Lemma stol_reads_negative_witness : stol " -5 ms" = Ret (-5).
Proof.
  apply (stol_reads_negative " " 5 " ms"); try reflexivity.
  vm_compute. discriminate.
Defined.

Lemma parse_resp_loop_length (n : nat) (iss : istringstream) (old : string)
    (parts : list string) :
  (length (parse_resp_loop n iss old parts) <= length parts + n)%nat.
Proof.
  revert iss old parts. induction n as [|n IH]; intros iss old parts;
    cbn [parse_resp_loop]; [lia|].
  destruct (getline iss old) as [iss1 line1].
  destruct (negb _).
  - specialize (IH iss1 line1 parts). lia.
  - destruct (getline iss1 line1) as [iss2 line2].
    specialize (IH iss2 line2 (parts ++ [line2])).
    rewrite length_app in IH. simpl in IH. lia.
Qed.

(** [parse_resp] returns at most as many strings as the array length of
    the first line says, and none unless that line starts with [*]. *)
Theorem parse_resp_at_most_array_len (input : string) (parts : list string) :
  parse_resp input = Ret parts ->
  parts <> [] ->
  wrong_sigil (first_line input) = false
  /\ exists array_len,
       stoi (substr_from1 (first_line input)) = Ret array_len
       /\ Z.of_nat (length parts) <= array_len.
Proof.
  unfold parse_resp, first_line, wrong_sigil.
  destruct (getline _ _) as [iss l]. cbn [snd].
  destruct (negb _); [intros [= <-] Hne; contradiction|].
  destruct (stoi _) as [n|e|u]; try discriminate.
  cbn [bind]. intros [= <-] Hne. split; [reflexivity|].
  exists n. split; [reflexivity|].
  pose proof (parse_resp_loop_length (Z.to_nat n) iss l []) as Hlen.
  simpl in Hlen.
  destruct (parse_resp_loop (Z.to_nat n) iss l []) eqn:E; [contradiction|].
  simpl in *. lia.
Qed.

Lemma parse_resp_at_most_array_len_witness :
  wrong_sigil (first_line ping_lines) = false
  /\ exists array_len,
       stoi (substr_from1 (first_line ping_lines)) = Ret array_len
       /\ Z.of_nat (length ["PING"]) <= array_len.
Proof.
  apply (parse_resp_at_most_array_len ping_lines ["PING"]); [reflexivity|discriminate].
Defined.

Lemma parse_resp_loop_stuck (m : nat) (last : string) (parts : list string) :
  front last = "$"%char ->
  parse_resp_loop m (mk_iss EmptyString false) last parts
  = parts ++ replicate m last.
Proof.
  intros Hlast. revert parts. induction m as [|m IH]; intros parts.
  - simpl. by rewrite app_nil_r.
  - cbn [parse_resp_loop]. unfold getline. cbn [good]. rewrite Hlast.
    simpl negb. cbv iota. rewrite IH. simpl. by rewrite <- app_assoc.
Qed.

(** When the input ends inside the first element and its last line
    starts with [$], that line is returned as every argument of the
    request: [std::getline] fails from then on and leaves [line] as it
    was, the sigil test passes again and the line is pushed again. *)
Theorem parse_resp_repeats_last_line (count len last : string) (n : Z) :
  lf_free count = true ->
  lf_free len = true ->
  lf_free last = true ->
  front last = "$"%char ->
  stoi count = Ret n ->
  parse_resp (line ("*" +:+ count) +:+ line ("$" +:+ len) +:+ last)
  = Ret (replicate (Z.to_nat n) last).
Proof.
  intros Hcount Hlen Hlast Hfront Hn.
  unfold parse_resp.
  rewrite getline_line by (rewrite append_cons, append_nil; simpl; exact Hcount).
  rewrite append_cons, append_nil. cbn [front substr_from1]. simpl negb. cbv iota.
  rewrite Hn. cbn [bind]. f_equal.
  destruct (Z.to_nat n) as [|m]; [reflexivity|].
  cbn [parse_resp_loop].
  rewrite getline_line by (rewrite append_cons, append_nil; simpl; exact Hlen).
  rewrite append_cons. cbn [front]. simpl negb. cbv iota.
  unfold getline at 1. cbn [good unread]. rewrite split_line_none by assumption.
  by rewrite parse_resp_loop_stuck.
Qed.

Lemma parse_resp_repeats_last_line_witness :
  parse_resp (line "*3" +:+ line "$1" +:+ "$x") = Ret ["$x"; "$x"; "$x"].
Proof.
  apply (parse_resp_repeats_last_line "3" "1" "$x" 3); reflexivity.
Defined.

(** ** to_upper *)

Lemma toupper_toupper (c : ascii) : toupper (toupper c) = toupper c.
Proof.
  apply code_inj. rewrite !code_toupper.
  pose proof (code_range c). repeat case_match; lia.
Qed.

Lemma toupper_same_letter (c d : ascii) :
  toupper c = toupper d -> same_letter c d = true.
Proof.
  intros H. apply (f_equal code) in H. rewrite !code_toupper in H.
  unfold same_letter, is_letter.
  destruct (Ascii.eqb_spec c d) as [->|Hne]; [reflexivity|].
  assert (code c <> code d) by (intros E; by apply code_inj in E).
  pose proof (code_range c). pose proof (code_range d).
  repeat case_match; lia.
Qed.

(** [to_upper] keeps the length of a string, changes nothing when
    applied again, and gives the same string for two inputs exactly when
    they differ only in the case of ASCII letters. *)
Theorem to_upper_identifies_case (a b : string) :
  String.length (to_upper a) = String.length a
  /\ to_upper (to_upper a) = to_upper a
  /\ (to_upper a = to_upper b <-> differ_only_in_case a b = true).
Proof.
  split; [|split].
  - induction a as [|c a IH]; simpl; [reflexivity|]. by rewrite IH.
  - induction a as [|c a IH]; simpl; [reflexivity|].
    by rewrite toupper_toupper, IH.
  - split; [|apply differ_only_in_case_to_upper].
    revert b. induction a as [|c a IH]; intros [|d b] H; simpl in *;
      try discriminate; [reflexivity|].
    injection H as Hc Hs.
    by rewrite (toupper_same_letter c d Hc), (IH b Hs).
Qed.

Lemma to_upper_identifies_case_witness :
  to_upper "SeT" = to_upper "set" /\ to_upper (to_upper "SeT") = to_upper "SeT".
Proof.
  split.
  - apply (proj2 (proj2 (to_upper_identifies_case "SeT" "set"))). reflexivity.
  - apply (proj1 (proj2 (to_upper_identifies_case "SeT" "set"))).
Defined.

(** ** handle_command: when it is defined, and what it does to the store *)




(** The outcome of a SET does not depend on the store it runs on: it is
    the insertion of one entry at its key, or the expire error, or
    undefined, the same on every store. *)
Lemma set_outcome_uniform now cmd key args :
  to_upper cmd = "SET" ->
  (exists v, forall kv : kv_store,
     handle_command now kv (cmd :: key :: args) = Ret (OK, <[key := v]> kv))
  \/ (forall kv : kv_store,
        handle_command now kv (cmd :: key :: args) = Ret (ERR_EXPIRE, kv))
  \/ (exists u, forall kv : kv_store,
        handle_command now kv (cmd :: key :: args) = Undefined u).
Proof.
  intros Hc. destruct args as [|val opts].
  { right; right. exists index_past_end. intros kv.
    by apply handle_command_set_short. }
  destruct (px_option opts) eqn:Hpx.
  - destruct opts as [|px [|millis rest]]; try discriminate.
    apply String.eqb_eq in Hpx.
    destruct (stol millis) as [z|e|u] eqn:Hz.
    + destruct (ValueWithExpiry_px now val z) as [v|e|u] eqn:Hv.
      * left. exists v. intros kv.
        rewrite handle_command_set_px by assumption. by rewrite Hz, Hv.
      * unfold ValueWithExpiry_px in Hv. by case_match.
      * right; right. exists u. intros kv.
        rewrite handle_command_set_px by assumption. by rewrite Hz, Hv.
    + right; left. intros kv.
      rewrite handle_command_set_px by assumption. by rewrite Hz.
    + by apply stol_defined in Hz.
  - left. exists (ValueWithExpiry_plain val). intros kv.
    by apply handle_command_set_plain.
Qed.

(** A request leaves alone the entry of every key but the one named by
    its second element. *)
Theorem handle_command_touches_one_key (now : Z) (kv kv' : kv_store)
    (parts : list string) (r key : string) :
  handle_command now kv parts = Ret (r, kv') ->
  parts !! 1%nat <> Some key ->
  kv' !! key = kv !! key.
Proof.
  intros H Hkey.
  apply handle_command_effect in H
    as [->|[(cmd & k & v & rest & -> & Hc & ->)|(cmd & k & v & rest & -> & Hv & Hx & ->)]].
  - reflexivity.
  - apply lookup_insert_ne. intros ->. by apply Hkey.
  - apply lookup_delete_ne. intros ->. by apply Hkey.
Qed.

Lemma handle_command_touches_one_key_witness :
  (<["other" := ValueWithExpiry_plain "x"]> store_with_old) !! "k" = store_with_old !! "k".
Proof.
  apply (handle_command_touches_one_key 3 store_with_old _ ["set"; "other"; "x"] OK "k").
  - reflexivity.
  - discriminate.
Defined.

(** ** handle_command: how requests compose *)

(** A SET with a PX option whose millis convert stores the value with
    the expiry [now + millis] in ticks.  A GET up to and including that
    tick returns the value and keeps the entry; a GET after it replies
    the null bulk and leaves the store without the key. *)
Theorem set_px_then_get (now1 now2 : Z) (kv : kv_store)
    (set get key val px millis : string) (z : Z) :
  to_upper set = "SET" -> to_upper get = "GET" -> to_upper px = "PX" ->
  stol millis = Ret z ->
  fits_int64 (z * ticks_per_milli) && fits_int64 (now1 + z * ticks_per_milli) = true ->
  exists kv1,
    handle_command now1 kv [set; key; val; px; millis] = Ret (OK, kv1)
    /\ (now2 <= now1 + z * ticks_per_milli ->
          handle_command now2 kv1 [get; key] = Ret (plus_reply val, kv1))
    /\ (now1 + z * ticks_per_milli < now2 ->
          handle_command now2 kv1 [get; key] = Ret (NULL_BULK, delete key kv)).
Proof.
  intros Hset Hget Hpx Hz Hfit.
  eexists. split.
  { rewrite handle_command_set_px by assumption. rewrite Hz.
    unfold ValueWithExpiry_px. rewrite Hfit. reflexivity. }
  split; intros Hnow; rewrite handle_command_get by assumption;
    rewrite lookup_insert_eq; unfold is_expired; cbn [has_expiry expiry value negb].
  - replace (now2 >? _) with false by lia. reflexivity.
  - replace (now2 >? _) with true by lia. by rewrite delete_insert_eq.
Qed.

Lemma set_px_then_get_witness :
  exists kv1,
    handle_command 1000 store_with_old ["SET"; "k"; "bar"; "px"; "100"] = Ret (OK, kv1)
    /\ (100001000 <= 1000 + 100 * ticks_per_milli ->
          handle_command 100001000 kv1 ["GET"; "k"] = Ret (plus_reply "bar", kv1))
    /\ (1000 + 100 * ticks_per_milli < 100001000 ->
          handle_command 100001000 kv1 ["GET"; "k"] = Ret (NULL_BULK, delete "k" store_with_old)).
Proof.
  apply (set_px_then_get 1000 100001000 store_with_old "SET" "GET" "k" "bar" "px" "100" 100);
    reflexivity.
Defined.

(** A GET asked again at the same clock reading, on the store the first
    one left, gets the same reply and changes nothing more. *)
Theorem get_twice (now : Z) (kv kv' : kv_store) (get key r : string)
    (extra : list string) :
  to_upper get = "GET" ->
  handle_command now kv (get :: key :: extra) = Ret (r, kv') ->
  handle_command now kv' (get :: key :: extra) = Ret (r, kv').
Proof.
  intros Hget. rewrite !handle_command_get by assumption.
  destruct (kv !! key) as [v|] eqn:Hv.
  - destruct (is_expired now v) eqn:Hx; intros [= <- <-].
    + by rewrite lookup_delete_eq.
    + by rewrite Hv, Hx.
  - intros [= <- <-]. by rewrite Hv.
Qed.

Lemma get_twice_witness :
  handle_command 101 (delete "k" store_until_100) ["GET"; "k"]
  = Ret (NULL_BULK, delete "k" store_until_100).
Proof.
  apply (get_twice 101 store_until_100 _ "GET" "k" NULL_BULK []); reflexivity.
Defined.

(** The last write wins: a SET that is answered [+OK] leaves the same
    store whether or not another SET of the same key ran before it.
    Nothing of the earlier entry, value or expiry, is left. *)
Theorem set_overwrites_set (now1 now2 : Z) (kv kv1 kv2 : kv_store)
    (set1 set2 key r1 : string) (args1 args2 : list string) :
  to_upper set1 = "SET" -> to_upper set2 = "SET" ->
  handle_command now1 kv (set1 :: key :: args1) = Ret (r1, kv1) ->
  handle_command now2 kv (set2 :: key :: args2) = Ret (OK, kv2) ->
  handle_command now2 kv1 (set2 :: key :: args2) = Ret (OK, kv2).
Proof.
  intros H1 H2 Hfirst Hsecond.
  assert (Hkv1 : kv1 = kv \/ exists v, kv1 = <[key := v]> kv).
  { destruct (set_outcome_uniform now1 set1 key args1 H1) as [[v Hv]|[He|[u Hu]]].
    - rewrite Hv in Hfirst. injection Hfirst as _ <-. right. by exists v.
    - rewrite He in Hfirst. injection Hfirst as _ <-. by left.
    - rewrite Hu in Hfirst. discriminate. }
  destruct (set_outcome_uniform now2 set2 key args2 H2) as [[v Hv]|[He|[u Hu]]].
  - rewrite Hv in Hsecond. injection Hsecond as <-. rewrite Hv.
    destruct Hkv1 as [->|[w ->]]; [reflexivity|]. by rewrite insert_insert_eq.
  - rewrite He in Hsecond. discriminate.
  - rewrite Hu in Hsecond. discriminate.
Qed.

Lemma set_overwrites_set_witness :
  handle_command 9 (<["k" := mk_value "a" (5 + 100 * ticks_per_milli) true]> store_with_old)
    ["set"; "k"; "b"]
  = Ret (OK, <["k" := ValueWithExpiry_plain "b"]> store_with_old).
Proof.
  apply (set_overwrites_set 5 9 store_with_old _ _ "SET" "set" "k" OK
           ["a"; "PX"; "100"] ["b"]); reflexivity.
Defined.

(** Two SETs of different keys commute: run in either order, each at its
    own clock reading, they leave the same store. *)
Theorem sets_of_different_keys_commute (now1 now2 : Z) (kv kv' : kv_store)
    (set1 set2 key1 key2 : string) (args1 args2 : list string) :
  to_upper set1 = "SET" -> to_upper set2 = "SET" ->
  key1 <> key2 ->
  run kv [(now1, set1 :: key1 :: args1); (now2, set2 :: key2 :: args2)] = Ret kv' ->
  run kv [(now2, set2 :: key2 :: args2); (now1, set1 :: key1 :: args1)] = Ret kv'.
Proof.
  intros H1 H2 Hne. cbn [run].
  destruct (set_outcome_uniform now1 set1 key1 args1 H1) as [[v Hv]|[He|[u Hu]]];
    destruct (set_outcome_uniform now2 set2 key2 args2 H2) as [[w Hw]|[Hf|[u' Hu']]];
    rewrite ?Hv, ?He, ?Hu, ?Hw, ?Hf, ?Hu'; cbn [bind snd];
    rewrite ?Hv, ?He, ?Hu, ?Hw, ?Hf, ?Hu'; cbn [bind snd];
    try discriminate; try done.
  intros [= <-]. by rewrite insert_insert_ne.
Qed.

Lemma sets_of_different_keys_commute_witness :
  run store_with_old [(2, ["SET"; "b"; "y"; "px"; "7"]); (1, ["SET"; "a"; "x"])]
  = Ret (<["b" := mk_value "y" (2 + 7 * ticks_per_milli) true]>
           (<["a" := ValueWithExpiry_plain "x"]> store_with_old)).
Proof.
  apply (sets_of_different_keys_commute 1 2 store_with_old _ "SET" "SET" "a" "b"
           ["x"] ["y"; "px"; "7"]); [reflexivity|reflexivity|discriminate|reflexivity].
Defined.

(** ** handle_command: responses *)

(** What a request can be answered with, and the store that comes with
    each answer. *)
Lemma handle_command_answers now (kv kv' : kv_store) parts r :
  handle_command now kv parts = Ret (r, kv') ->
  (kv' = kv
   /\ (r = ERR_EMPTY \/ r = PONG \/ r = ERR_EXPIRE \/ r = ERR_UNKNOWN
       \/ r = NULL_BULK \/ exists s, r = plus_reply s))
  \/ (r = OK /\ exists k v, kv' = <[k := v]> kv)
  \/ (r = NULL_BULK /\ exists k, kv' = delete k kv).
Proof.
  destruct parts as [|cmd [|k rest]].
  - intros [= <- <-]. left. split; [reflexivity|]. by left.
  - unfold handle_command. simpl.
    repeat (case_match; simpl); intros [= <- <-] || discriminate;
      left; (split; [reflexivity|]); auto 10.
  - destruct (String.eqb_spec (to_upper cmd) "SET") as [Hset|Hset].
    + destruct (set_outcome_uniform now cmd k rest Hset) as [[v Hv]|[He|[u Hu]]].
      * rewrite Hv. intros [= <- <-]. right; left. eauto.
      * rewrite He. intros [= <- <-]. left. split; [reflexivity|]. auto 10.
      * rewrite Hu. discriminate.
    + destruct (String.eqb_spec (to_upper cmd) "GET") as [Hget|Hget].
      * rewrite handle_command_get by assumption.
        destruct (kv !! k) as [v|].
        -- destruct (is_expired now v); intros [= <- <-].
           ++ right; right. eauto.
           ++ left. split; [reflexivity|]. do 5 right. eauto.
        -- intros [= <- <-]. left. split; [reflexivity|]. auto 10.
      * apply String.eqb_neq in Hset, Hget.
        unfold handle_command. simpl. rewrite Hset, Hget. simpl.
        repeat (case_match; simpl); intros [= <- <-] || discriminate;
          left; (split; [reflexivity|]); eauto 10.
Qed.

(** Every response ends with CR LF, and an error response, one that
    starts with [-], comes with the store unchanged. *)
Theorem responses_end_with_crlf (now : Z) (kv kv' : kv_store)
    (parts : list string) (r : string) :
  handle_command now kv parts = Ret (r, kv') ->
  (exists body, r = body +:+ CRLF)
  /\ (front r = "-"%char -> kv' = kv).
Proof.
  intros H. apply handle_command_answers in H
    as [[-> Hr]|[[-> _]|[-> _]]].
  - split; [|reflexivity].
    destruct Hr as [->|[->|[->|[->|[->|[s ->]]]]]]; try (eexists; reflexivity).
    exists ("+" +:+ s). unfold plus_reply. by rewrite !append_assoc.
  - split; [eexists; reflexivity|discriminate].
  - split; [eexists; reflexivity|discriminate].
Qed.

Lemma responses_end_with_crlf_witness :
  (exists body, ERR_EXPIRE = body +:+ CRLF)
  /\ (front ERR_EXPIRE = "-"%char -> store_with_old = store_with_old).
Proof.
  apply (responses_end_with_crlf 0 store_with_old store_with_old
           ["SET"; "k"; "v"; "PX"; "soon"] ERR_EXPIRE).
  reflexivity.
Defined.

(** Arguments that are missing or too many.  A command name other than
    PING that comes alone is answered as an unknown command, ECHO, SET
    and GET included; ECHO and GET use their first argument and ignore
    the ones after it. *)
Theorem missing_and_extra_arguments (now : Z) (kv : kv_store)
    (cmd arg : string) (extra : list string) :
  (to_upper cmd <> "PING" -> handle_command now kv [cmd] = Ret (ERR_UNKNOWN, kv))
  /\ (to_upper cmd = "ECHO" ->
        handle_command now kv (cmd :: arg :: extra) = Ret (plus_reply arg, kv))
  /\ (to_upper cmd = "GET" ->
        handle_command now kv (cmd :: arg :: extra) = handle_command now kv [cmd; arg]).
Proof.
  split; [|split].
  - intros H. apply String.eqb_neq in H. dispatch_with H.
    by rewrite !andb_false_r.
  - intros H. dispatch_with H. reflexivity.
  - intros H. by rewrite !handle_command_get.
Qed.

Lemma missing_and_extra_arguments_witness :
  handle_command 0 store_with_old ["echo"] = Ret (ERR_UNKNOWN, store_with_old)
  /\ handle_command 0 store_with_old ["Echo"; "a"; "b"] = Ret (plus_reply "a", store_with_old).
Proof.
  split.
  - apply (proj1 (missing_and_extra_arguments 0 store_with_old "echo" "" [])).
    discriminate.
  - apply (proj1 (proj2 (missing_and_extra_arguments 0 store_with_old "Echo" "a" ["b"]))).
    reflexivity.
Defined.

(** ** The receive loop: what it keeps *)

Lemma find_crlf_empty : find_crlf EmptyString = None.
Proof. reflexivity. Qed.




(** ** The receive loop: how the stream is cut does not matter *)

Lemma starts_with_crlf_app (x y : string) :
  starts_with_crlf x = true -> starts_with_crlf (x +:+ y) = true.
Proof.
  destruct x as [|c [|d x]]; try discriminate. by rewrite !append_cons.
Qed.

Lemma find_crlf_app (x y : string) (pos : nat) :
  find_crlf x = Some pos -> find_crlf (x +:+ y) = Some pos.
Proof.
  revert pos. induction x as [|c x IH]; intros pos; [discriminate|].
  rewrite append_cons. cbn [find_crlf].
  destruct (starts_with_crlf (String c x)) eqn:E.
  - intros [= <-]. rewrite <- append_cons.
    by rewrite (starts_with_crlf_app _ y E).
  - destruct (find_crlf x) as [p|] eqn:Hp; [|discriminate].
    intros [= <-]. rewrite (IH p eq_refl).
    destruct (starts_with_crlf (String c (x +:+ y))) eqn:E'; [|reflexivity].
    exfalso. destruct x as [|d x]; [discriminate|].
    rewrite append_cons in E'. simpl in E, E'. congruence.
Qed.

Lemma take_str_app (n : nat) (x y : string) :
  (n <= String.length x)%nat -> take_str n (x +:+ y) = take_str n x.
Proof.
  revert x. induction n as [|n IH]; intros x Hn.
  - by destruct x, y.
  - destruct x as [|c x]; [simpl in Hn; lia|].
    rewrite append_cons. simpl. rewrite IH; [reflexivity|simpl in Hn; lia].
Qed.

Lemma drop_str_app (n : nat) (x y : string) :
  (n <= String.length x)%nat -> drop_str n (x +:+ y) = drop_str n x +:+ y.
Proof.
  revert x. induction n as [|n IH]; intros x Hn.
  - by destruct x.
  - destruct x as [|c x]; [simpl in Hn; lia|].
    rewrite append_cons. simpl. apply IH. simpl in Hn. lia.
Qed.

Lemma preceded_by_nil (s : session) : preceded_by [] [] s = s.
Proof. by destruct s. Qed.

Lemma fed_preceded_by (clock : nat -> Z) (more : string)
    (reqs : list (list string)) (responses : list string) (s : session) :
  fed clock more (preceded_by reqs responses s)
  = preceded_by reqs responses (fed clock more s).
Proof.
  unfold fed. cbn [preceded_by status requests sent store incomplete_data served].
  destruct (status s); unfold preceded_by;
    cbn [requests sent store incomplete_data served status];
    by rewrite <- ?app_assoc.
Qed.

(** Bytes added at the end of a buffer change nothing of what the loop
    does with the buffer: the session of the longer buffer is the
    session of the shorter one, fed the added bytes. *)
Lemma process_loop_app (clock : nat -> Z) (more : string) (fuel k : nat)
    (kv : kv_store) (buf : string) :
  (String.length buf <= fuel)%nat ->
  process_buffer clock k kv (buf +:+ more)
  = fed clock more (process_loop fuel clock k kv buf).
Proof.
  revert k kv buf. induction fuel as [|fuel IH]; intros k kv buf Hfuel.
  - destruct buf; [|simpl in Hfuel; lia].
    simpl. unfold fed. simpl. by rewrite preceded_by_nil.
  - cbn [process_loop]. destruct (find_crlf buf) as [pos|] eqn:Hfind.
    2:{ unfold fed. simpl. by rewrite preceded_by_nil. }
    pose proof (find_crlf_bound _ _ Hfind) as Hb.
    rewrite process_buffer_eq, (find_crlf_app _ more _ Hfind).
    rewrite take_str_app, drop_str_app by lia.
    destruct (parse_resp _) as [parts|e|u]; try reflexivity.
    destruct (handle_command _ _ _) as [[response kv']|e|u]; try reflexivity.
    rewrite fed_preceded_by. f_equal.
    apply IH. rewrite length_drop_str. lia.
Qed.

Lemma process_buffer_app (clock : nat -> Z) (more : string) (k : nat)
    (kv : kv_store) (buf : string) :
  process_buffer clock k kv (buf +:+ more)
  = fed clock more (process_buffer clock k kv buf).
Proof. unfold process_buffer at 2. by apply process_loop_app. Qed.

Lemma length_zero_nonempty (s : string) :
  s <> EmptyString -> (String.length s =? 0)%nat = false.
Proof. by destruct s. Qed.

(** Two [recv]s in a row answer the peer as one [recv] of the bytes of
    both. *)
Lemma two_recvs_as_one (clock : nat -> Z) (a b : string) (recvs : list string)
    (k : nat) (kv : kv_store) (buf : string) :
  a <> EmptyString -> b <> EmptyString ->
  observable (handle_client_from clock (a :: b :: recvs) k kv buf)
  = observable (handle_client_from clock ((a +:+ b) :: recvs) k kv buf).
Proof.
  intros Ha Hb.
  assert (Hab : a +:+ b <> EmptyString) by (by destruct a).
  cbn [handle_client_from].
  rewrite !length_zero_nonempty by assumption. cbv zeta.
  rewrite <- (append_assoc buf a b).
  rewrite (process_buffer_app clock b k kv (buf +:+ a)).
  remember (process_buffer clock k kv (buf +:+ a)) as sa eqn:Esa.
  unfold fed. destruct (status sa) eqn:Hsa;
    [|unfold observable; cbn [requests sent store served status];
      by rewrite Hsa..].
  cbn [status]; rewrite ?Hsa.
  remember (process_buffer clock (served sa) (store sa) (incomplete_data sa +:+ b))
    as sb eqn:Esb.
  cbn [preceded_by status requests sent store incomplete_data served].
  destruct (status sb) eqn:Hsb; unfold observable, preceded_by;
    cbn [status requests sent store incomplete_data served];
    by rewrite <- ?app_assoc.
Qed.

Lemma observable_status (s t : session) :
  observable s = observable t -> status s = status t.
Proof. unfold observable. by intros [= _ _ _ _ ->]. Qed.

(** What a connection is answered depends on the bytes it sends and not
    on how [recv] cuts them: the session of any non-empty [recv]s shows
    the same requests, responses, store and end as the session of one
    [recv] with all their bytes. *)
Theorem recv_boundaries_do_not_matter (clock : nat -> Z) (recvs : list string)
    (k : nat) (kv : kv_store) (buf : string) :
  recvs <> [] ->
  Forall (fun bytes => bytes <> EmptyString) recvs ->
  observable (handle_client_from clock recvs k kv buf)
  = observable (handle_client_from clock [concat_recvs recvs] k kv buf).
Proof.
  destruct recvs as [|a recvs]; [done|]. intros _ Hall.
  revert a Hall. induction recvs as [|b recvs IH]; intros a Hall.
  - cbn [concat_recvs]. by rewrite append_nil_r.
  - apply Forall_cons in Hall as [Ha Hall].
    pose proof Hall as Hall'. apply Forall_cons in Hall' as [Hb Hrest].
    rewrite two_recvs_as_one by assumption.
    rewrite IH.
    + cbn [concat_recvs]. by rewrite append_assoc.
    + constructor; [by destruct a|assumption].
Qed.

Lemma recv_boundaries_do_not_matter_witness :
  observable (handle_client still_clock ∅ ["*1"; String CR EmptyString; String LF "$4"])
  = observable (handle_client still_clock ∅ ["*1" +:+ CRLF +:+ "$4"]).
Proof.
  apply (recv_boundaries_do_not_matter still_clock
           ["*1"; String CR EmptyString; String LF "$4"] 0 ∅ EmptyString).
  - discriminate.
  - repeat constructor; discriminate.
Defined.

(** ** The receive loop: the requests it does serve *)

Lemma plain_bytes_split (s : string) :
  plain_bytes s = true -> cr_free s = true /\ lf_free s = true.
Proof.
  induction s as [|c s IH]; [done|]. simpl. intros H.
  apply andb_prop in H as [H Hs]. apply andb_prop in H as [Hcr Hlf].
  destruct (IH Hs) as [-> ->]. by rewrite Hcr, Hlf.
Qed.

Lemma cr_free_app (s t : string) : cr_free (s +:+ t) = cr_free s && cr_free t.
Proof.
  induction s as [|c s IH]; [reflexivity|].
  rewrite append_cons. simpl. rewrite IH. by rewrite andb_assoc.
Qed.

Lemma cr_free_element_lines (elems : list (string * string)) :
  Forall (fun e => plain_bytes (fst e) = true /\ plain_bytes (snd e) = true) elems ->
  cr_free (element_lines elems) = true.
Proof.
  induction 1 as [|[len payload] elems [Hl Hp] _ IH]; [reflexivity|].
  cbn [fst snd] in Hl, Hp.
  apply plain_bytes_split in Hl as [Hl _]. apply plain_bytes_split in Hp as [Hp _].
  cbn [element_lines]. unfold line.
  rewrite !cr_free_app, IH, Hl, Hp. reflexivity.
Qed.

Lemma find_crlf_after_cr_free (s rest : string) :
  cr_free s = true -> find_crlf (s +:+ CRLF +:+ rest) = Some (String.length s).
Proof.
  induction s as [|c s IH]; intros H; [reflexivity|].
  simpl in H. apply andb_prop in H as [Hc Hs]. apply negb_true_iff in Hc.
  rewrite append_cons. cbn [find_crlf].
  replace (starts_with_crlf _) with false.
  - by rewrite (IH Hs).
  - symmetry. destruct (s +:+ CRLF +:+ rest); simpl; [reflexivity|].
    by rewrite Hc.
Qed.

Lemma take_str_past (n : nat) (x y : string) :
  take_str (String.length x + n) (x +:+ y) = x +:+ take_str n y.
Proof.
  induction x as [|c x IH]; [reflexivity|].
  rewrite !append_cons. simpl. by rewrite IH.
Qed.

Lemma drop_str_past (n : nat) (x y : string) :
  drop_str (String.length x + n) (x +:+ y) = drop_str n y.
Proof.
  induction x as [|c x IH]; [reflexivity|].
  rewrite !append_cons. simpl. exact IH.
Qed.

Lemma take_crlf (rest : string) : take_str 2 (CRLF +:+ rest) = CRLF.
Proof. reflexivity. Qed.

Lemma drop_crlf (rest : string) : drop_str 2 (CRLF +:+ rest) = rest.
Proof. reflexivity. Qed.

(** A request in lines that end with a bare LF, closed by one CR LF, is
    decoded, handled and answered as it stands: the loop passes the
    payload lines to [handle_command], sends its response and goes on
    with the bytes after the CR LF. *)
Theorem request_in_lines_is_served (clock : nat -> Z) (k : nat) (kv kv' : kv_store)
    (count : string) (elems : list (string * string)) (n : Z)
    (rest response : string) :
  plain_bytes count = true ->
  Forall (fun e => plain_bytes (fst e) = true /\ plain_bytes (snd e) = true) elems ->
  stoi count = Ret n ->
  n <= Z.of_nat (length elems) ->
  handle_command (clock k) kv (take (Z.to_nat n) (map snd elems)) = Ret (response, kv') ->
  process_buffer clock k kv (request_lines count elems +:+ CRLF +:+ rest)
  = preceded_by [take (Z.to_nat n) (map snd elems)] [response]
      (process_buffer clock (S k) kv' rest).
Proof.
  intros Hcount Helems Hn Hle Hcmd.
  assert (Hcr : cr_free (request_lines count elems) = true).
  { unfold request_lines, line. rewrite !cr_free_app.
    rewrite (cr_free_element_lines elems Helems).
    apply plain_bytes_split in Hcount as [-> _]. reflexivity. }
  rewrite process_buffer_eq, (find_crlf_after_cr_free _ rest Hcr).
  rewrite take_str_past, drop_str_past, take_crlf, drop_crlf.
  rewrite (parse_resp_of_lines count elems CRLF n); try assumption.
  - by rewrite Hcmd.
  - by apply plain_bytes_split in Hcount as [_ ->].
  - eapply Forall_impl; [exact Helems|]. intros e [Hl Hp].
    apply plain_bytes_split in Hl as [_ ->].
    by apply plain_bytes_split in Hp as [_ ->].
Qed.

Lemma request_in_lines_is_served_witness :
  process_buffer still_clock 0 store_with_old
    (request_lines "2" [("3", "GET"); ("1", "k")] +:+ CRLF +:+ "*1")
  = preceded_by [["GET"; "k"]] [plus_reply "old"]
      (process_buffer still_clock 1 store_with_old "*1").
Proof.
  apply (request_in_lines_is_served still_clock 0 store_with_old store_with_old
           "2" [("3", "GET"); ("1", "k")] 2 "*1" (plus_reply "old"));
    first [reflexivity | by repeat constructor | simpl; lia].
Defined.

(** ** Witnesses for the lemmas on frames and array lengths *)

Lemma frame_decodes_to_empty_requests_witness :
  Forall (fun parts => parts = [])
    (requests (handle_client still_clock ∅ [frame ["SET"; "k"; "a" +:+ CRLF +:+ "b"]])).
Proof.
  apply (frame_decodes_to_empty_requests still_clock ∅ ["SET"; "k"; "a" +:+ CRLF +:+ "b"]).
  repeat constructor.
Defined.

Lemma non_numeric_length_terminates_witness :
  process_buffer still_clock 0 store_with_old ("*two" +:+ CRLF +:+ ping_lines)
  = mk_session [] [] store_with_old
      (drop_str (4 + 2) ("*two" +:+ CRLF +:+ ping_lines)) 0 (Terminated invalid_argument).
Proof.
  apply (non_numeric_length_terminates still_clock 0 store_with_old
           ("*two" +:+ CRLF +:+ ping_lines) 4); reflexivity.
Defined.

(** ** The dispatcher before expiry *)

(** The earlier [handle_command] answers every request: with SET guarded
    by [parts.size() > 2] no element is read past the end, and nothing
    throws.  A SET of two elements is an unknown command. *)
Theorem previous_handle_command_is_defined (kv : gmap string string)
    (parts : list string) :
  (exists r kv', Previous.handle_command kv parts = Ret (r, kv'))
  /\ (forall cmd key, parts = [cmd; key] -> to_upper cmd = "SET" ->
        Previous.handle_command kv parts = Ret (ERR_UNKNOWN, kv)).
Proof.
  split.
  - unfold Previous.handle_command.
    destruct parts as [|p0 [|p1 [|p2 rest]]]; simpl;
      repeat (case_match; simpl); eauto;
      rewrite ?andb_false_r in *; discriminate.
  - intros cmd key -> Hc. unfold Previous.handle_command. simpl.
    rewrite Hc. reflexivity.
Qed.

Lemma previous_handle_command_is_defined_witness :
  Previous.handle_command ∅ ["SET"; "k"] = Ret (ERR_UNKNOWN, ∅).
Proof.
  apply (proj2 (previous_handle_command_is_defined ∅ ["SET"; "k"]) "SET" "k");
    reflexivity.
Defined.

(** The dispatcher with expiry answers as the earlier one did, and leaves
    the same values in the store, on every request that it answers, that
    carries no PX option, and that runs while no entry of the store has
    expired. *)
Theorem handle_command_refines_previous (now : Z) (kv kv' : kv_store)
    (parts : list string) (r : string) :
  handle_command now kv parts = Ret (r, kv') ->
  (forall key, unexpired kv key now) ->
  (forall cmd key val opts,
     parts = cmd :: key :: val :: opts -> to_upper cmd = "SET" ->
     px_option opts = false) ->
  Previous.handle_command (value <$> kv) parts = Ret (r, value <$> kv').
Proof.
  intros H Hlive Hpx.
  destruct parts as [|cmd [|key rest]].
  - by injection H as <- <-.
  - revert H. unfold handle_command, Previous.handle_command. simpl.
    repeat (case_match; simpl); intros [= <- <-] || discriminate;
      rewrite ?andb_false_r in *; try discriminate; reflexivity.
  - destruct (String.eqb_spec (to_upper cmd) "SET") as [Hset|Hset].
    + destruct rest as [|val opts].
      { rewrite handle_command_set_short in H by assumption. discriminate. }
      rewrite handle_command_set_plain in H by eauto.
      injection H as <- <-.
      unfold Previous.handle_command. simpl. rewrite Hset. simpl.
      by rewrite fmap_insert.
    + destruct (String.eqb_spec (to_upper cmd) "GET") as [Hget|Hget].
      * rewrite handle_command_get in H by assumption.
        unfold Previous.handle_command. simpl. rewrite Hget. simpl.
        rewrite lookup_fmap.
        destruct (kv !! key) as [v|] eqn:Hv; simpl.
        -- rewrite (Hlive key v Hv) in H. by injection H as <- <-.
        -- by injection H as <- <-.
      * apply String.eqb_neq in Hset, Hget. revert H.
        unfold handle_command, Previous.handle_command. simpl.
        rewrite Hset, Hget. simpl.
        repeat (case_match; simpl); intros [= <- <-] || discriminate;
          reflexivity.
Qed.

Lemma handle_command_refines_previous_witness :
  Previous.handle_command (value <$> store_with_old) ["set"; "k"; "new"]
  = Ret (OK, value <$> <["k" := ValueWithExpiry_plain "new"]> store_with_old).
Proof.
  apply (handle_command_refines_previous 5 store_with_old _ ["set"; "k"; "new"] OK).
  - reflexivity.
  - intros key v. unfold store_with_old.
    destruct (decide (key = "k")) as [->|Hne].
    + rewrite lookup_insert_eq. by intros [= <-].
    + rewrite lookup_insert_ne by done. by rewrite lookup_empty.
  - intros cmd key val opts [= <- <- <- <-] _. reflexivity.
Defined.
